(** * AlarmServer: scheduling core, recurrence arithmetic and time strings

    A shallow embedding of [alarm_server.hpp], [alarm_system.cpp] and
    [database.cpp], together with the parts of the C and C++ run-time
    libraries those files call ([localtime], [mktime], [std::get_time],
    [std::put_time], [std::priority_queue]).

    Modelling conventions.
    - [std::chrono::system_clock::time_point] is its tick count: a signed
      64-bit number of nanoseconds since the epoch (libstdc++).  [time_t]
      is a signed 64-bit number of seconds.  Sums and products of time
      points are written in [Z]; they are the values the program computes
      as long as they stay between [time_point_min] and [time_point_max].
      A statement that depends on such a value carries that range as a
      hypothesis and shows that the values it speaks of stay inside it.
      What the 64-bit addition does beyond the range is written out in
      [wrap64], [advance64] and [next_occurrence_loop64].
    - The process runs in UTC, so [localtime] is [gmtime], [tm_isdst] is
      always zero and [mktime] is the inverse of [localtime] on normalised
      fields.  Other time zones and daylight-saving rules are not
      modelled: every statement about calendar fields or about the text
      of a time is a statement about a process running in UTC.
    - [system_clock::now()] is an input: every function that reads the
      clock takes the value read as an argument.
    - [RecurrenceType] is a scoped enumeration over [int]; a
      [static_cast] from the request or from the database can store any
      integer in it, so it is modelled by its underlying integer. *)

From Stdlib Require Import ZArith Lia Bool Ascii String.
From stdpp Require Import base list.
From Stdlib Require Import Sorting.Sorted.

Local Open Scope Z_scope.

(** ** Time representation *)

Definition time_t := Z.
Definition time_point := Z.

Definition ticks_per_second : Z := 1000000000.

(** [system_clock::to_time_t]: a [duration_cast] to seconds, which
    truncates toward zero. *)
Definition to_time_t (tp : time_point) : time_t := Z.quot tp ticks_per_second.

Definition from_time_t (t : time_t) : time_point := t * ticks_per_second.

(** [std::chrono::hours(h)] converted to the clock's duration. *)
Definition hours (h : Z) : Z := h * 3600 * ticks_per_second.

(** ** The C library calendar: [struct tm], [localtime], [mktime] *)

Record tm := mk_tm {
  tm_sec : Z;
  tm_min : Z;
  tm_hour : Z;
  tm_mday : Z;
  tm_mon : Z;
  tm_year : Z
}.

(** [std::tm tm = {}] *)
Definition tm_zero : tm := mk_tm 0 0 0 0 0 0.

Definition set_tm_year (y : Z) (t : tm) : tm :=
  mk_tm (tm_sec t) (tm_min t) (tm_hour t) (tm_mday t) (tm_mon t) y.
Definition set_tm_mon (m : Z) (t : tm) : tm :=
  mk_tm (tm_sec t) (tm_min t) (tm_hour t) (tm_mday t) m (tm_year t).
Definition set_tm_mday (d : Z) (t : tm) : tm :=
  mk_tm (tm_sec t) (tm_min t) (tm_hour t) d (tm_mon t) (tm_year t).
Definition set_tm_hour (h : Z) (t : tm) : tm :=
  mk_tm (tm_sec t) (tm_min t) h (tm_mday t) (tm_mon t) (tm_year t).
Definition set_tm_min (m : Z) (t : tm) : tm :=
  mk_tm (tm_sec t) m (tm_hour t) (tm_mday t) (tm_mon t) (tm_year t).

Definition is_leap (y : Z) : bool :=
  (y mod 4 =? 0) && (negb (y mod 100 =? 0) || (y mod 400 =? 0)).

(** Number of leap years from year 1 through year [y]. *)
Definition leaps_thru_end_of (y : Z) : Z := y / 4 - y / 100 + y / 400.

(** Days from 1970-01-01 to January 1st of year [y]. *)
Definition days_before_year (y : Z) : Z :=
  365 * (y - 1970) + (leaps_thru_end_of (y - 1) - leaps_thru_end_of 1969).

Definition year_length (y : Z) : Z := if is_leap y then 366 else 365.

(** Cumulative days before each month (the C library's [__mon_yday]). *)
Definition mon_yday (leap : bool) : list Z :=
  if leap
  then [0; 31; 60; 91; 121; 152; 182; 213; 244; 274; 305; 335; 366]
  else [0; 31; 59; 90; 120; 151; 181; 212; 243; 273; 304; 334; 365].

Definition days_before_month (leap : bool) (m : Z) : Z :=
  nth (Z.to_nat m) (mon_yday leap) 0.

Definition days_in_month (leap : bool) (m : Z) : Z :=
  days_before_month leap (m + 1) - days_before_month leap m.

(** The year containing day number [d]: an estimate from the mean year
    length, corrected by at most one year. *)
Definition year_of_days (d : Z) : Z :=
  let g := 1970 + (400 * d) / 146097 in
  if d <? days_before_year g then g - 1
  else if days_before_year (g + 1) <=? d then g + 1
  else g.

(** The month containing day-of-year [yday]: scan the table downwards,
    [for (m = 11; yday < ip[m]; --m)]. *)
Fixpoint month_scan (leap : bool) (yday : Z) (m : nat) : nat :=
  match m with
  | O => O
  | S m' =>
      if yday <? nth m (mon_yday leap) 0 then month_scan leap yday m' else m
  end.

Definition month_of_yday (leap : bool) (yday : Z) : Z :=
  Z.of_nat (month_scan leap yday 11).

(** [localtime] in UTC. *)
Definition localtime (t : time_t) : tm :=
  let days := t / 86400 in
  let rem := t mod 86400 in
  let y := year_of_days days in
  let yday := days - days_before_year y in
  let m := month_of_yday (is_leap y) yday in
  {| tm_sec := rem mod 60;
     tm_min := (rem / 60) mod 60;
     tm_hour := rem / 3600;
     tm_mday := yday - days_before_month (is_leap y) m + 1;
     tm_mon := m;
     tm_year := y - 1900 |}.

(** [mktime] in UTC.  Fields need not be in range: the month is reduced
    modulo 12 into the year, and every other field is simply added up, so
    that an out-of-range day rolls over into the following month. *)
Definition mktime (t : tm) : time_t :=
  let year := 1900 + tm_year t + tm_mon t / 12 in
  let mon := tm_mon t mod 12 in
  let yday := days_before_month (is_leap year) mon + tm_mday t - 1 in
  let days := days_before_year year + yday in
  ((days * 24 + tm_hour t) * 60 + tm_min t) * 60 + tm_sec t.

(** ** Events and recurrence kinds *)

Definition RecurrenceType := Z.
Definition NONE : RecurrenceType := 0.
Definition DAILY : RecurrenceType := 1.
Definition WEEKLY : RecurrenceType := 2.
Definition MONTHLY : RecurrenceType := 3.
Definition YEARLY : RecurrenceType := 4.

Record AlarmEvent := mk_event {
  id : Z;
  description : string;
  datetime : time_point;
  recurrence : RecurrenceType
}.

Definition set_datetime (t : time_point) (e : AlarmEvent) : AlarmEvent :=
  mk_event (id e) (description e) t (recurrence e).

(** [AlarmEvent::operator>] *)
Definition event_gt (a b : AlarmEvent) : bool := datetime b <? datetime a.

(** ** Recurrence calculator ([AlarmSystem::calculateNextOccurrence]) *)

(** The MONTHLY case of the switch. *)
Definition advance_month (time : time_point) : time_point :=
  let t := localtime (to_time_t time) in
  let t1 := set_tm_mon (tm_mon t + 1) t in
  let t2 := if tm_mon t1 >? 11
            then set_tm_year (tm_year t1 + 1) (set_tm_mon 0 t1)
            else t1 in
  from_time_t (mktime t2).

(** The YEARLY case of the switch. *)
Definition advance_year (time : time_point) : time_point :=
  let t := localtime (to_time_t time) in
  from_time_t (mktime (set_tm_year (tm_year t + 1) t)).

(** One pass through the switch: [Some] is the new candidate after
    [break], [None] is the [default: return time] exit. *)
Definition advance (r : RecurrenceType) (time : time_point) : option time_point :=
  if r =? DAILY then Some (time + hours 24)
  else if r =? WEEKLY then Some (time + hours (24 * 7))
  else if r =? MONTHLY then Some (advance_month time)
  else if r =? YEARLY then Some (advance_year time)
  else None.

(** The [while (time <= now)] loop, with an explicit iteration budget;
    [None] means the budget ran out before the loop exited. *)
Fixpoint next_occurrence_loop (fuel : nat) (r : RecurrenceType)
    (now time : time_point) : option time_point :=
  match fuel with
  | O => None
  | S fuel' =>
      if time <=? now then
        match advance r time with
        | Some time' => next_occurrence_loop fuel' r now time'
        | None => Some time
        end
      else Some time
  end.

(** A budget that always suffices: every pass moves the candidate forward
    by at least 24 hours. *)
Definition next_occurrence_budget (now time : time_point) : nat :=
  S (Z.to_nat ((now - time) / hours 24 + 1)).

Definition calculateNextOccurrence (event : AlarmEvent) (now : time_point)
    : time_point :=
  match next_occurrence_loop (next_occurrence_budget now (datetime event))
          (recurrence event) now (datetime event) with
  | Some t => t
  | None => datetime event
  end.

(** ** Time strings: the C locale, [std::put_time] and [std::get_time] *)

Definition code (c : ascii) : Z := Z.of_nat (nat_of_ascii c).

(** [isspace] in the C locale: space, and the controls 9..13. *)
Definition is_space (c : ascii) : bool :=
  (code c =? 32) || ((9 <=? code c) && (code c <=? 13)).

Definition is_digit (c : ascii) : bool := (48 <=? code c) && (code c <=? 57).

Definition digit_val (c : ascii) : Z := code c - 48.

Definition digit_char (d : Z) : ascii := ascii_of_nat (Z.to_nat (48 + d)).

Definition to_lower (c : ascii) : ascii :=
  if (65 <=? code c) && (code c <=? 90)
  then ascii_of_nat (Z.to_nat (code c + 32)) else c.

Definition to_upper (c : ascii) : ascii :=
  if (97 <=? code c) && (code c <=? 122)
  then ascii_of_nat (Z.to_nat (code c - 32)) else c.

(** *** Formatting ([strftime], reached through [std::put_time]) *)

(** Decimal digits of a non-negative number, most significant first. *)
Fixpoint decimal_fuel (fuel : nat) (n : Z) : string :=
  match fuel with
  | O => EmptyString
  | S fuel' =>
      if n <? 10 then String (digit_char n) EmptyString
      else decimal_fuel fuel' (n / 10)
             ++ String (digit_char (n mod 10)) EmptyString
  end.

Definition decimal (n : Z) : string :=
  decimal_fuel (S (Z.to_nat (Z.log2 n))) n.

(** A number printed with a minus sign if negative and zero-padded to at
    least [width] digits. *)
Fixpoint zero_pad (k : nat) (s : string) : string :=
  match k with
  | O => s
  | S k' => String "0" (zero_pad k' s)
  end.

Definition put_number (width : nat) (n : Z) : string :=
  let digits := decimal (Z.abs n) in
  let padded := zero_pad (width - String.length digits) digits in
  if n <? 0 then String "-" padded else padded.

(** The conversions used by the source's format; any other conversion
    character is copied through. *)
Definition put_conversion (c : ascii) (t : tm) : string :=
  if Ascii.eqb c "Y" then put_number 1 (1900 + tm_year t)
  else if Ascii.eqb c "m" then put_number 2 (tm_mon t + 1)
  else if Ascii.eqb c "d" then put_number 2 (tm_mday t)
  else if Ascii.eqb c "H" then put_number 2 (tm_hour t)
  else if Ascii.eqb c "M" then put_number 2 (tm_min t)
  else String "%" (String c EmptyString).

Fixpoint strftime (fmt : string) (t : tm) : string :=
  match fmt with
  | EmptyString => EmptyString
  | String "%" (String c rest) => put_conversion c t ++ strftime rest t
  | String c rest => String c (strftime rest t)
  end.

(** *** Parsing ([std::time_get], reached through [std::get_time]) *)

(** Stream state bits set by the extraction. *)
Record iostate := mk_iostate { failbit : bool; eofbit : bool }.

Definition goodbit : iostate := mk_iostate false false.

Fixpoint skip_spaces (s : string) : string :=
  match s with
  | String c s' => if is_space c then skip_spaces s' else s
  | EmptyString => s
  end.

(** The digit loop of [_M_extract_num]: reads at most [len] digits, and
    stops without consuming the digit that takes the value above [max].
    Returns the rest of the input, the value and the number of digits
    consumed. *)
Fixpoint extract_digits (len : nat) (max value : Z) (i : nat) (s : string)
    : string * Z * nat :=
  match len with
  | O => (s, value, i)
  | S len' =>
      match s with
      | EmptyString => (s, value, i)
      | String c s' =>
          if is_digit c then
            let value' := value * 10 + digit_val c in
            if value' >? max then (s, value', i)
            else extract_digits len' max value' (S i) s'
          else (s, value, i)
      end
  end.

(** [_M_extract_num]: [Some v] stores [v] in the member, [None] sets
    [failbit] and stores nothing. *)
Definition extract_num (s : string) (min max : Z) (len : nat)
    : string * option Z :=
  let '(rest, value, i) := extract_digits len max 0 O s in
  if negb (Nat.eqb i 0) && (min <=? value) && (value <=? max)
  then (rest, Some value)
  else (rest, None).

(** One conversion of [_M_extract_via_format], for the conversions of the
    source's format; the input is not empty when this is called.  The
    result is the rest of the input, the updated fields and whether the
    conversion failed.  Conversions the source never uses are reported as
    failures. *)
Definition get_conversion (c : ascii) (s : string) (t : tm)
    : string * tm * bool :=
  if Ascii.eqb c "Y" then
    match extract_num s 0 9999 4 with
    | (rest, Some v) => (rest, set_tm_year (v - 1900) t, false)
    | (rest, None) => (rest, t, true)
    end
  else if Ascii.eqb c "m" then
    match extract_num s 1 12 2 with
    | (rest, Some v) => (rest, set_tm_mon (v - 1) t, false)
    | (rest, None) => (rest, t, true)
    end
  else if Ascii.eqb c "d" then
    let s1 := match s with
              | String c1 s' => if is_space c1 then s' else s
              | EmptyString => s
              end in
    match extract_num s1 1 31 2 with
    | (rest, Some v) => (rest, set_tm_mday v t, false)
    | (rest, None) => (rest, t, true)
    end
  else if Ascii.eqb c "H" then
    match extract_num s 0 23 2 with
    | (rest, Some v) => (rest, set_tm_hour v t, false)
    | (rest, None) => (rest, t, true)
    end
  else if Ascii.eqb c "M" then
    match extract_num s 0 59 2 with
    | (rest, Some v) => (rest, set_tm_min v t, false)
    | (rest, None) => (rest, t, true)
    end
  else (s, t, true).

(** The format string cut into the steps of the loop of [time_get::get]:
    a conversion, a run of white space, or a literal character. *)
Inductive directive :=
  | Conv (c : ascii)
  | Space
  | Lit (c : ascii)
  | Dangling.

Fixpoint compile_format (fmt : string) : list directive :=
  match fmt with
  | EmptyString => []
  | String "%" EmptyString => [Dangling]
  | String "%" (String c rest) => Conv c :: compile_format rest
  | String c rest =>
      if is_space c then
        match compile_format rest with
        | Space :: ds => Space :: ds
        | ds => Space :: ds
        end
      else Lit c :: compile_format rest
  end.

Definition lit_match (a b : ascii) : bool :=
  Ascii.eqb (to_lower a) (to_lower b) || Ascii.eqb (to_upper a) (to_upper b).

(** The loop of [time_get::get]. *)
Fixpoint time_get (ds : list directive) (s : string) (t : tm) : tm * iostate :=
  match ds with
  | [] => (t, goodbit)
  | d :: ds' =>
      match s with
      | EmptyString => (t, mk_iostate true true)
      | String c s' =>
          match d with
          | Dangling => (t, mk_iostate true false)
          | Conv f =>
              let '(rest, t', failed) := get_conversion f s t in
              let at_end := match rest with EmptyString => true | _ => false end in
              if failed || at_end then (t', mk_iostate failed at_end)
              else time_get ds' rest t'
          | Space => time_get ds' (skip_spaces s) t
          | Lit f =>
              if lit_match c f then time_get ds' s' t
              else (t, mk_iostate true false)
          end
      end
  end.

(** [ss >> std::get_time(&tm, fmt)] on a fresh [istringstream]: the
    sentry skips leading white space and fails at end of input. *)
Definition get_time (fmt : string) (input : string) (t : tm) : tm * iostate :=
  match skip_spaces input with
  | EmptyString => (t, mk_iostate true true)
  | s => time_get (compile_format fmt) s t
  end.

(** ** [datetime_utils] *)

Definition datetime_format : string := "%Y-%m-%d %H:%M".

(** [parseDateTime]: the stream state is never inspected. *)
Definition parseDateTime (datetime_str : string) : time_point :=
  let '(t, _) := get_time datetime_format datetime_str tm_zero in
  from_time_t (mktime t).

Definition formatDateTime (tp : time_point) : string :=
  strftime datetime_format (localtime (to_time_t tp)).

(** ** The event store: [std::priority_queue] over a vector

    The container adaptor keeps its vector arranged as a binary heap with
    libstdc++'s heap algorithms ([stl_heap.h]).  Indices are vector
    positions; reading a position yields the element there (the default
    given to [nth] is never read inside the vector's bounds).
    [priority_queue::empty] is the test for the empty vector and
    [priority_queue::top] is the vector's first element; the callers
    below read both by matching on the vector. *)

Section Heap.
Context {A : Type} (comp : A -> A -> bool).

(** [std::__push_heap]: move the hole up while the parent compares
    before the value, then drop the value in the hole.  The loop runs at
    most [holeIndex] times. *)
Fixpoint push_heap_loop (fuel : nat) (first : list A)
    (holeIndex topIndex : nat) (value : A) : list A :=
  match fuel with
  | O => <[holeIndex := value]> first
  | S fuel' =>
      let parent := ((holeIndex - 1) / 2)%nat in
      if (topIndex <? holeIndex)%nat && comp (nth parent first value) value
      then push_heap_loop fuel' (<[holeIndex := nth parent first value]> first)
             parent topIndex value
      else <[holeIndex := value]> first
  end.

Definition std_push_heap_aux (first : list A) (holeIndex topIndex : nat)
    (value : A) : list A :=
  push_heap_loop holeIndex first holeIndex topIndex value.

(** [std::push_heap (first, last, comp)]: the value is the last element. *)
Definition std_push_heap (first : list A) : list A :=
  match last first with
  | Some value => std_push_heap_aux first (length first - 1) 0 value
  | None => first
  end.

(** The first loop of [std::__adjust_heap]: move the hole down to the
    child that does not compare before its sibling, as long as the hole
    has two children.  After each pass [secondChild = holeIndex]. *)
Fixpoint adjust_heap_loop (fuel : nat) (first : list A)
    (holeIndex len : nat) (value : A) : list A * nat :=
  match fuel with
  | O => (first, holeIndex)
  | S fuel' =>
      if (holeIndex <? (len - 1) / 2)%nat then
        let secondChild := (2 * (holeIndex + 1))%nat in
        let secondChild :=
          if comp (nth secondChild first value)
                  (nth (secondChild - 1) first value)
          then (secondChild - 1)%nat else secondChild in
        adjust_heap_loop fuel' (<[holeIndex := nth secondChild first value]> first)
          secondChild len value
      else (first, holeIndex)
  end.

(** [std::__adjust_heap].  The test [(len & 1) == 0 && secondChild ==
    (len - 2) / 2] is on signed integers, so it is false for [len < 2]. *)
Definition std_adjust_heap (first : list A) (holeIndex len : nat) (value : A)
    : list A :=
  let topIndex := holeIndex in
  let '(first, holeIndex) := adjust_heap_loop len first holeIndex len value in
  let '(first, holeIndex) :=
    if Nat.even len && (2 <=? len)%nat && (holeIndex =? (len - 2) / 2)%nat
    then
      let secondChild := (2 * (holeIndex + 1))%nat in
      (<[holeIndex := nth (secondChild - 1) first value]> first,
       (secondChild - 1)%nat)
    else (first, holeIndex) in
  std_push_heap_aux first holeIndex topIndex value.

(** [std::__pop_heap (first, last, result, comp)] with [result = last]:
    the element at [result] is saved, the first element is stored there,
    and the saved value is sifted into the range before [result]. *)
Definition std_pop_heap_aux (first : list A) (last : nat) (value : A) : list A :=
  match first with
  | top :: _ => std_adjust_heap (<[last := top]> first) 0 last value
  | [] => first
  end.

(** [std::pop_heap (first, last, comp)] *)
Definition std_pop_heap (first : list A) : list A :=
  if (1 <? length first)%nat then
    match last first with
    | Some value => std_pop_heap_aux first (length first - 1) value
    | None => first
    end
  else first.

(** [priority_queue::push]: [c.push_back (x); push_heap (...)]. *)
Definition pq_push (c : list A) (x : A) : list A := std_push_heap (c ++ [x]).

(** [priority_queue::pop]: [pop_heap (...); c.pop_back ()]. *)
Definition pq_pop (c : list A) : list A := removelast (std_pop_heap c).

End Heap.

(** ** Exceptions and the persistence interface *)

Inductive exn :=
  | DatabaseException (what : string)
  | AlarmSystemException (what : string)
  | OtherException (what : string).

(** What a call does: return a value or leave by an exception. *)
Inductive outcome (A : Type) :=
  | Returned (a : A)
  | Thrown (e : exn).
Arguments Returned {A} a.
Arguments Thrown {A} e.

(** The virtual methods of [class Database] that the scheduler calls.
    Each takes the database state and gives the state after the call. *)
Class Database (DB : Type) := {
  db_addAlarm : DB -> string -> string -> RecurrenceType -> DB * outcome Z;
  db_loadAlarms : DB -> DB * outcome (list AlarmEvent);
  db_updateAlarmDateTime : DB -> Z -> string -> DB * outcome unit
}.

(** *** The SQLite-backed [Database] of [database.cpp]

    The table is a list of rows; a failure of [sqlite3_prepare_v2] or of
    [sqlite3_step] is decided by the environment, here a script that
    supplies at most one fault per method call.  Text crosses the
    interface as a C string: [sqlite3_bind_text] is called with length
    [-1] and [sqlite3_column_text] is read as a [const char*], so only the
    bytes before the first zero byte are stored or read. *)

(** The bytes of [s.c_str()] up to the terminating zero byte. *)
Fixpoint c_str (s : string) : string :=
  match s with
  | EmptyString => EmptyString
  | String c rest =>
      if Ascii.eqb c "000" then EmptyString else String c (c_str rest)
  end.

Record Row := mk_row {
  row_id : Z;
  row_description : string;
  row_datetime : string;
  row_recurrence : Z
}.

Inductive sqlite_fault :=
  | PrepareFails (errmsg : string)
  | StepFails (errmsg : string).

(** [last_rowid] is the largest row id handed out so far; the column
    is declared AUTOINCREMENT, so a new row gets the id after it. *)
Record Sqlite := mk_sqlite {
  rows : list Row;
  last_rowid : Z;
  faults : list (option sqlite_fault)
}.

(** The conversion of a 64-bit row id to [int]. *)
Definition to_int (z : Z) : Z := (z + 2147483648) mod 4294967296 - 2147483648.

Definition next_fault (d : Sqlite) : option sqlite_fault * Sqlite :=
  match faults d with
  | [] => (None, d)
  | f :: fs => (f, mk_sqlite (rows d) (last_rowid d) fs)
  end.

Definition sqlite_addAlarm (d : Sqlite) (description datetime : string)
    (recurrence : RecurrenceType) : Sqlite * outcome Z :=
  let '(fault, d) := next_fault d in
  match fault with
  | Some (PrepareFails errmsg) =>
      (d, Thrown (DatabaseException ("Failed to prepare statement: " ++ errmsg)))
  | Some (StepFails errmsg) =>
      (d, Thrown (DatabaseException ("Failed to insert alarm: " ++ errmsg)))
  | None =>
      let rowid := last_rowid d + 1 in
      (mk_sqlite
         (rows d ++ [mk_row rowid (c_str description) (c_str datetime) recurrence])
         rowid (faults d),
       Returned (to_int rowid))
  end.

Definition event_of_row (r : Row) : AlarmEvent :=
  mk_event (to_int (row_id r)) (c_str (row_description r))
    (parseDateTime (c_str (row_datetime r))) (row_recurrence r).

(** A failing step ends the [while (sqlite3_step (stmt) == SQLITE_ROW)]
    loop like the end of the table does; it is modelled at the first
    step. *)
Definition sqlite_loadAlarms (d : Sqlite) : Sqlite * outcome (list AlarmEvent) :=
  let '(fault, d) := next_fault d in
  match fault with
  | Some (PrepareFails errmsg) =>
      (d, Thrown (DatabaseException ("Failed to prepare statement: " ++ errmsg)))
  | Some (StepFails _) => (d, Returned [])
  | None => (d, Returned (map event_of_row (rows d)))
  end.

Definition sqlite_updateAlarmDateTime (d : Sqlite) (id : Z)
    (new_datetime : string) : Sqlite * outcome unit :=
  let '(fault, d) := next_fault d in
  match fault with
  | Some (PrepareFails errmsg) =>
      (d, Thrown (DatabaseException ("Failed to prepare statement: " ++ errmsg)))
  | Some (StepFails errmsg) =>
      (d, Thrown (DatabaseException ("Failed to update alarm: " ++ errmsg)))
  | None =>
      (mk_sqlite
         (map (fun r => if row_id r =? id
                        then mk_row (row_id r) (row_description r)
                               (c_str new_datetime) (row_recurrence r)
                        else r) (rows d))
         (last_rowid d) (faults d),
       Returned tt)
  end.

#[export] Instance sqlite_database : Database Sqlite := {
  db_addAlarm := sqlite_addAlarm;
  db_loadAlarms := sqlite_loadAlarms;
  db_updateAlarmDateTime := sqlite_updateAlarmDateTime
}.

(** ** [recurrenceTypeToString] *)

Definition recurrenceTypeToString (type : RecurrenceType) : string :=
  if type =? DAILY then "Daily"%string
  else if type =? WEEKLY then "Weekly"%string
  else if type =? MONTHLY then "Monthly"%string
  else if type =? YEARLY then "Yearly"%string
  else "None"%string.

(** ** [class AlarmSystem] *)

(** What one call does besides changing the object: console output,
    condition-variable traffic and calls made on the database. *)
Inductive effect :=
  | Stdout (line : string)
  | Stderr (line : string)
  | NotifyOne
  | Wait
  | WaitUntil (deadline : time_point)
  | CallAddAlarm (description datetime : string) (recurrence : RecurrenceType)
  | CallLoadAlarms
  | CallUpdateAlarmDateTime (id : Z) (new_datetime : string).

Section AlarmSystem.
Context {DB : Type} `{Database DB}.

Record AlarmSystem := mk_system {
  events : list AlarmEvent;
  running : bool;
  db : DB
}.

Definition set_events (ev : list AlarmEvent) (s : AlarmSystem) : AlarmSystem :=
  mk_system ev (running s) (db s).
Definition set_db (d : DB) (s : AlarmSystem) : AlarmSystem :=
  mk_system (events s) (running s) d.

(** [events.push (e)] on the member priority queue, whose comparator is
    [std::greater<AlarmEvent>]. *)
Definition events_push (ev : list AlarmEvent) (e : AlarmEvent) :=
  pq_push event_gt ev e.
Definition events_pop (ev : list AlarmEvent) := pq_pop event_gt ev.

(** The body of the [for] loop of [AlarmSystem::loadAlarms].  Each record
    reads the clock once: inside [calculateNextOccurrence] if it recurs,
    in the comparison otherwise.  [clock k] is the [k]-th reading. *)
Fixpoint loadAlarms_loop (saved_alarms : list AlarmEvent)
    (clock : nat -> time_point) (k : nat) (ev : list AlarmEvent)
    : list AlarmEvent :=
  match saved_alarms with
  | [] => ev
  | alarm :: rest =>
      let ev' :=
        if negb (recurrence alarm =? NONE) then
          let next_occurrence := calculateNextOccurrence alarm (clock k) in
          events_push ev
            (mk_event (id alarm) (description alarm) next_occurrence
               (recurrence alarm))
        else if datetime alarm >? clock k then events_push ev alarm
        else ev in
      loadAlarms_loop rest clock (S k) ev'
  end.

Definition loadAlarms (s : AlarmSystem) (clock : nat -> time_point)
    : AlarmSystem * outcome unit * list effect :=
  match db_loadAlarms (db s) with
  | (db', Returned saved_alarms) =>
      (mk_system (loadAlarms_loop saved_alarms clock 0 (events s))
         (running s) db',
       Returned tt, [CallLoadAlarms])
  | (db', Thrown (DatabaseException what)) =>
      (set_db db' s,
       Thrown (AlarmSystemException ("Failed to load alarms: " ++ what)),
       [CallLoadAlarms])
  | (db', Thrown e) => (set_db db' s, Thrown e, [CallLoadAlarms])
  end.

(** The constructor, up to the start of the checker thread. *)
Definition construct (database : DB) (clock : nat -> time_point)
    : AlarmSystem * outcome unit * list effect :=
  loadAlarms (mk_system [] true database) clock.

Definition addEvent (s : AlarmSystem) (description datetime_str : string)
    (recurrence : RecurrenceType) : AlarmSystem * outcome unit * list effect :=
  let tp := parseDateTime datetime_str in
  let call := CallAddAlarm description datetime_str recurrence in
  match db_addAlarm (db s) description datetime_str recurrence with
  | (db', Returned id) =>
      (mk_system (events_push (events s) (mk_event id description tp recurrence))
         (running s) db',
       Returned tt, [call; NotifyOne])
  | (db', Thrown (DatabaseException what)) =>
      (set_db db' s,
       Thrown (AlarmSystemException ("Failed to add event: " ++ what)),
       [call])
  | (db', Thrown e) => (set_db db' s, Thrown e, [call])
  end.

(** One entry of the listing built by [getEvents]. *)
Definition display (event : AlarmEvent) : string * string :=
  let desc := description event in
  let desc :=
    if negb (recurrence event =? NONE)
    then (desc ++ " (" ++ recurrenceTypeToString (recurrence event) ++ ")")%string
    else desc in
  (desc, formatDateTime (datetime event)).

(** The [while (!temp.empty ())] loop of [getEvents]; each pass removes
    one element, so [length temp] passes empty the queue. *)
Fixpoint getEvents_loop (fuel : nat) (temp : list AlarmEvent)
    (result : list (string * string)) : list (string * string) :=
  match fuel with
  | O => result
  | S fuel' =>
      match temp with
      | [] => result
      | event :: _ =>
          getEvents_loop fuel' (events_pop temp) (result ++ [display event])
      end
  end.

(** [getEvents] works on [temp], a copy of the member queue. *)
Definition getEvents (s : AlarmSystem) : list (string * string) * AlarmSystem :=
  let temp := events s in
  (getEvents_loop (length temp) temp [], s).

(** One pass of the [while (running)] loop of [checkAlarms], entered
    with [running] true.  [now] is the clock reading taken by the pass
    and [now'] the later one taken inside [calculateNextOccurrence].
    The result is the object after the pass, the effects in order, and
    the exception that leaves the loop, if any. *)
Definition checkAlarms_pass (s : AlarmSystem) (now now' : time_point)
    : AlarmSystem * list effect * option exn :=
  match events s with
  | [] => (s, [Wait], None)
  | next_event :: _ =>
      if datetime next_event <=? now then
        let alarm := Stdout ("ALARM: " ++ description next_event) in
        let popped := events_pop (events s) in
        if negb (recurrence next_event =? NONE) then
          let next_occurrence := calculateNextOccurrence next_event now' in
          let next_event := set_datetime next_occurrence next_event in
          let call := CallUpdateAlarmDateTime (id next_event)
                        (formatDateTime next_occurrence) in
          match db_updateAlarmDateTime (db s) (id next_event)
                  (formatDateTime next_occurrence) with
          | (db', Returned _) =>
              (mk_system (events_push popped next_event) (running s) db',
               [alarm; call], None)
          | (db', Thrown (DatabaseException what)) =>
              (mk_system popped (running s) db',
               [alarm; call;
                Stderr ("Failed to update recurring alarm: " ++ what)],
               None)
          | (db', Thrown e) =>
              (mk_system popped (running s) db', [alarm; call], Some e)
          end
        else (set_events popped s, [alarm], None)
      else (s, [WaitUntil (datetime next_event)], None)
  end.

(** The loop itself, for a given number of passes: it stops when
    [running] is false or an exception leaves a pass.  [clock] gives the
    two readings of each pass. *)
Fixpoint checkAlarms (passes : nat) (s : AlarmSystem)
    (clock : nat -> time_point * time_point)
    : AlarmSystem * list effect * option exn :=
  match passes with
  | O => (s, [], None)
  | S passes' =>
      if running s then
        let '(now, now') := clock O in
        match checkAlarms_pass s now now' with
        | (s', out, None) =>
            let '(s'', out', r) :=
              checkAlarms passes' s' (fun k => clock (S k)) in
            (s'', (out ++ out')%list, r)
        | (s', out, Some e) => (s', out, Some e)
        end
      else (s, [], None)
  end.
End AlarmSystem.

Arguments AlarmSystem DB : clear implicits.

(** ** [stringToRecurrenceType] *)

Definition stringToRecurrenceType (str : string) : RecurrenceType :=
  if String.eqb str "Daily" then DAILY
  else if String.eqb str "Weekly" then WEEKLY
  else if String.eqb str "Monthly" then MONTHLY
  else if String.eqb str "Yearly" then YEARLY
  else NONE.

(** ** Vocabulary of the statements *)

(** A date field valid for the calendar: month in range, day inside the
    month, time of day inside the day. *)
Definition tm_valid (t : tm) : Prop :=
  0 <= tm_mon t <= 11 /\
  1 <= tm_mday t <= days_in_month (is_leap (1900 + tm_year t)) (tm_mon t) /\
  0 <= tm_hour t < 24 /\ 0 <= tm_min t < 60 /\ 0 <= tm_sec t < 60.

(** The field update made by the MONTHLY case before calling [mktime]. *)
Definition bump_month (t : tm) : tm :=
  if tm_mon t + 1 >? 11
  then set_tm_year (tm_year t + 1) (set_tm_mon 0 t)
  else set_tm_mon (tm_mon t + 1) t.


(** The four kinds for which the switch advances the candidate. *)
Definition recurring_kind (r : RecurrenceType) : Prop :=
  r = DAILY \/ r = WEEKLY \/ r = MONTHLY \/ r = YEARLY.

(** One pass of the loop body as a total function on the candidate. *)
Definition step (r : RecurrenceType) (time : time_point) : time_point :=
  match advance r time with
  | Some time' => time'
  | None => time
  end.

(** Integer ceiling of [a / b] for positive [b]. *)
Definition ceil_div (a b : Z) : Z := - ((- a) / b).

(** The calendar fields a MONTHLY or YEARLY step aims at: the next month
    (December carries into January of the next year) or the next year,
    with every other field kept. *)
Definition target_fields (r : RecurrenceType) (t : tm) : tm :=
  if r =? MONTHLY then bump_month t else set_tm_year (tm_year t + 1) t.

(** Broken-down time of a time point, as the calculator reads it. *)
Definition fields_of (time : time_point) : tm := localtime (to_time_t time).

(** A calendar time point, for examples (month 1..12). *)
Definition civil (y m d H M : Z) : time_point :=
  from_time_t (mktime (mk_tm 0 M H d (m - 1) (y - 1900))).

(** The range of a [system_clock::time_point]: a signed 64-bit count of
    nanoseconds. *)
Definition time_point_min : Z := -9223372036854775808.
Definition time_point_max : Z := 9223372036854775807.

(** A time point cut down to the start of its minute, rounding toward
    minus infinity ([floor]) or toward zero ([duration_cast]). *)
Definition floor_minutes (tp : time_point) : time_point :=
  tp / (60 * ticks_per_second) * (60 * ticks_per_second).
Definition trunc_minutes (tp : time_point) : time_point :=
  Z.quot tp (60 * ticks_per_second) * (60 * ticks_per_second).

(** The text of a two-digit and of a four-digit field. *)
Definition two_digits (n : Z) (rest : string) : string :=
  String (digit_char (n / 10)) (String (digit_char (n mod 10)) rest).
Definition four_digits (n : Z) (rest : string) : string :=
  String (digit_char (n / 1000))
    (String (digit_char (n / 100 mod 10)) (two_digits (n mod 100) rest)).

(** The text "YYYY-MM-DD HH:MM" of given calendar fields (month 1..12). *)
Definition datetime_text (y m d H M : Z) : string :=
  four_digits y (String "-" (two_digits m (String "-" (two_digits d
    (String " " (two_digits H (String ":" (two_digits M EmptyString)))))))).

(** Heap order on the first [len] positions of a vector, for elements
    ranked by [key]: no element ranks below its parent (the element at
    position [(i - 1) / 2]). *)
Section HeapOrder.
Context {A : Type} (key : A -> Z).

Definition heap_upto (len : nat) (v : list A) : Prop :=
  forall (i : nat) (d : A), (0 < i < len)%nat ->
    key (nth ((i - 1) / 2) v d) <= key (nth i v d).

Definition is_heap (v : list A) : Prop := heap_upto (length v) v.

(** Heap order everywhere except at the hole, whose own content is
    stale: pairs not touching the hole are ordered, and the children of
    the hole rank at or above the parent of the hole. *)
Definition hole_inv (len hole : nat) (v : list A) : Prop :=
  (forall (i : nat) (d : A), (0 < i < len)%nat ->
      i <> hole -> ((i - 1) / 2)%nat <> hole ->
      key (nth ((i - 1) / 2) v d) <= key (nth i v d)) /\
  (forall (i : nat) (d : A), (0 < i < len)%nat ->
      ((i - 1) / 2)%nat = hole -> (0 < hole)%nat ->
      key (nth ((hole - 1) / 2) v d) <= key (nth i v d)).

(** The value waiting to be stored ranks at or below the children of
    the hole. *)
Definition below_children (len hole : nat) (value : A) (v : list A) : Prop :=
  forall (i : nat) (d : A), (0 < i < len)%nat ->
    ((i - 1) / 2)%nat = hole -> key value <= key (nth i v d).
End HeapOrder.

(** The event store's invariant: the vector is a heap by due time. *)
Definition events_heap (ev : list AlarmEvent) : Prop := is_heap datetime ev.

(** Due times in non-decreasing order. *)
Definition by_due_time (a b : AlarmEvent) : Prop := datetime a <= datetime b.

(** What [loadAlarms] queues for the record read at clock reading [now]:
    a recurring record moved to its next occurrence, a one-shot record
    that is still ahead, or nothing. *)
Definition loaded_record (alarm : AlarmEvent) (now : time_point)
    : option AlarmEvent :=
  if negb (recurrence alarm =? NONE) then
    Some (mk_event (id alarm) (description alarm)
            (calculateNextOccurrence alarm now) (recurrence alarm))
  else if datetime alarm >? now then Some alarm
  else None.

Fixpoint loaded_records (saved : list AlarmEvent) (clock : nat -> time_point)
    (k : nat) : list AlarmEvent :=
  match saved with
  | [] => []
  | alarm :: rest =>
      match loaded_record alarm (clock k) with
      | Some e => e :: loaded_records rest clock (S k)
      | None => loaded_records rest clock (S k)
      end
  end.

Definition is_update_call (e : effect) : bool :=
  match e with
  | CallUpdateAlarmDateTime _ _ => true
  | _ => false
  end.

Section Reachable.
Context {DB : Type} `{Database DB}.

(** The states an [AlarmSystem] goes through: construction, then any
  interleaving of [addEvent] calls and passes of the checker loop. *)
Inductive reachable : AlarmSystem DB -> Prop :=
| reach_construct (database : DB) (clock : nat -> time_point) :
    reachable (construct database clock).1.1
| reach_addEvent (s : AlarmSystem DB) (description datetime_str : string)
    (recurrence : RecurrenceType) :
    reachable s ->
    reachable (addEvent s description datetime_str recurrence).1.1
| reach_pass (s : AlarmSystem DB) (now now' : time_point) :
    reachable s ->
    reachable (checkAlarms_pass s now now').1.1.

(** The state after a sequence of [addEvent] calls. *)
Fixpoint submit_all (s : AlarmSystem DB)
  (requests : list (string * string * RecurrenceType)) : AlarmSystem DB :=
match requests with
| [] => s
| (description, datetime_str, recurrence) :: rest =>
    submit_all (addEvent s description datetime_str recurrence).1.1 rest
end.
End Reachable.

(** ** Vocabulary of the further properties *)

(** A string made of white space only. *)
Fixpoint all_spaces (s : string) : bool :=
  match s with
  | EmptyString => true
  | String c s' => is_space c && all_spaces s'
  end.

(** The table of a SQLite database never holds a row id above the last
    one handed out. *)
Definition table_ok (d : Sqlite) : Prop :=
  Forall (fun r => row_id r <= last_rowid d) (rows d).

(** The lines a sequence of effects writes to standard output. *)
Fixpoint stdout_lines (effects : list effect) : list string :=
  match effects with
  | [] => []
  | Stdout line :: rest => line :: stdout_lines rest
  | _ :: rest => stdout_lines rest
  end.

Definition alarm_line (e : AlarmEvent) : string :=
  ("ALARM: " ++ description e)%string.

(** The text "YYYY-MM-DD HH:MM" followed by more characters. *)
Definition datetime_text_then (y m d H M : Z) (rest : string) : string :=
  four_digits y (String "-" (two_digits m (String "-" (two_digits d
    (String " " (two_digits H (String ":" (two_digits M rest)))))))).

(** ** Time points as 64-bit integers *)

(** The value a signed 64-bit register holds after an operation whose
    exact result is [z] (two's-complement wrap-around). *)
Definition wrap64 (z : Z) : Z :=
  (z + 9223372036854775808) mod 18446744073709551616 - 9223372036854775808.

(** One pass through the switch of [calculateNextOccurrence] in 64-bit
    arithmetic.  Each case ends in one operation on the tick count that
    can leave the range: the addition [time += hours (...)], or the
    multiplication by [ticks_per_second] inside [from_time_t]. *)
Definition advance64 (r : RecurrenceType) (time : time_point)
    : option time_point :=
  if r =? DAILY then Some (wrap64 (time + hours 24))
  else if r =? WEEKLY then Some (wrap64 (time + hours (24 * 7)))
  else if r =? MONTHLY then Some (wrap64 (advance_month time))
  else if r =? YEARLY then Some (wrap64 (advance_year time))
  else None.

(** The [while (time <= now)] loop in 64-bit arithmetic; [None] means
    that the loop has not exited within [fuel] passes. *)
Fixpoint next_occurrence_loop64 (fuel : nat) (r : RecurrenceType)
    (now time : time_point) : option time_point :=
  match fuel with
  | O => None
  | S fuel' =>
      if time <=? now then
        match advance64 r time with
        | Some time' => next_occurrence_loop64 fuel' r now time'
        | None => Some time
        end
      else Some time
  end.

(** A bound on the length of one step of any recurring kind: 367 days
    (a leap year and the second lost by [to_time_t]). *)
Definition longest_step : Z := hours (24 * 367).

(** Time points from which one more step of any kind stays inside the
    64-bit range. *)
Definition steps_in_range (t : time_point) : Prop :=
  time_point_min <= t <= time_point_max - longest_step.

(** A string without a zero byte. *)
Definition no_zero_byte (s : string) : Prop := c_str s = s.

(** * Properties *)

(** ** Calendar arithmetic *)

Ltac zdiv := Z.div_mod_to_equations; lia.

Lemma days_before_year_succ y :
  days_before_year (y + 1) = days_before_year y + year_length y.
Proof.
  unfold days_before_year, year_length, is_leap, leaps_thru_end_of.
  replace (y + 1 - 1) with y by lia.
  destruct (Z.eqb_spec (y mod 4) 0); destruct (Z.eqb_spec (y mod 100) 0);
    destruct (Z.eqb_spec (y mod 400) 0); cbn [andb orb negb]; zdiv.
Qed.

Lemma year_length_pos y : 365 <= year_length y <= 366.
Proof. unfold year_length. destruct (is_leap y); lia. Qed.

Lemma days_before_year_lt y1 y2 :
  y1 < y2 -> days_before_year y1 < days_before_year y2.
Proof.
  intros H. unfold days_before_year, leaps_thru_end_of. zdiv.
Qed.

Lemma year_of_days_spec d :
  days_before_year (year_of_days d) <= d < days_before_year (year_of_days d + 1).
Proof.
  unfold year_of_days. cbv zeta.
  set (g := 1970 + 400 * d / 146097).
  destruct (Z.ltb_spec d (days_before_year g)) as [Hlt|Hge].
  - replace (g - 1 + 1) with g by lia. split; [|lia].
    subst g. revert Hlt. unfold days_before_year, leaps_thru_end_of. zdiv.
  - destruct (Z.leb_spec (days_before_year (g + 1)) d) as [Hle|Hgt]; [|lia].
    split; [lia|].
    subst g. revert Hle. unfold days_before_year, leaps_thru_end_of. zdiv.
Qed.

Lemma year_of_days_unique y d :
  days_before_year y <= d < days_before_year (y + 1) -> year_of_days d = y.
Proof.
  intros [Hlo Hhi]. pose proof (year_of_days_spec d) as [Hlo' Hhi'].
  destruct (Z.lt_trichotomy (year_of_days d) y) as [Hlt|[Heq|Hgt]]; [|done|].
  - assert (year_of_days d + 1 <= y) as Hle by lia.
    apply Zle_lt_or_eq in Hle as [Hlt'|Heq'].
    + pose proof (days_before_year_lt _ _ Hlt'). lia.
    + rewrite Heq' in Hhi'. lia.
  - assert (y + 1 <= year_of_days d) as Hle by lia.
    apply Zle_lt_or_eq in Hle as [Hlt'|Heq'].
    + pose proof (days_before_year_lt _ _ Hlt'). lia.
    + rewrite <- Heq' in Hlo'. lia.
Qed.

Lemma month_cases (m : Z) :
  0 <= m <= 11 ->
  m = 0 \/ m = 1 \/ m = 2 \/ m = 3 \/ m = 4 \/ m = 5 \/
  m = 6 \/ m = 7 \/ m = 8 \/ m = 9 \/ m = 10 \/ m = 11.
Proof. lia. Qed.

Ltac month_split H :=
  apply month_cases in H;
  destruct H as [H|[H|[H|[H|[H|[H|[H|[H|[H|[H|[H|H]]]]]]]]]]]; subst.

Ltac ltb_cases :=
  repeat match goal with
         | |- context [?a <? ?b] => destruct (Z.ltb_spec a b); try lia
         end.

Lemma days_in_month_bounds (leap : bool) (m : Z) :
  0 <= m <= 11 -> 28 <= days_in_month leap m <= 31.
Proof.
  intros H. month_split H; destruct leap; vm_compute; split; discriminate.
Qed.

Lemma month_scan_spec (leap : bool) (yday : Z) :
  0 <= yday < (if leap then 366 else 365) ->
  (month_scan leap yday 11 <= 11)%nat /\
  nth (month_scan leap yday 11) (mon_yday leap) 0 <= yday
    < nth (S (month_scan leap yday 11)) (mon_yday leap) 0.
Proof.
  intros H.
  destruct leap; cbn [month_scan mon_yday nth];
    repeat match goal with
           | |- context [?a <? ?b] => destruct (Z.ltb_spec a b)
           end; cbn [nth]; lia.
Qed.

Lemma month_of_yday_spec (leap : bool) (yday : Z) :
  0 <= yday < (if leap then 366 else 365) ->
  0 <= month_of_yday leap yday <= 11 /\
  days_before_month leap (month_of_yday leap yday) <= yday
    < days_before_month leap (month_of_yday leap yday + 1).
Proof.
  intros H. destruct (month_scan_spec leap yday H) as [Hm Hd].
  unfold month_of_yday, days_before_month.
  replace (Z.of_nat (month_scan leap yday 11) + 1)
    with (Z.of_nat (S (month_scan leap yday 11))) by lia.
  rewrite !Nat2Z.id. lia.
Qed.

Lemma month_scan_unique (leap : bool) (m : nat) (yday : Z) :
  (m <= 11)%nat ->
  nth m (mon_yday leap) 0 <= yday < nth (S m) (mon_yday leap) 0 ->
  month_scan leap yday 11 = m.
Proof.
  intros Hm Hd.
  do 12 (destruct m as [|m];
         [destruct leap; cbn [mon_yday nth] in Hd;
          cbn [month_scan mon_yday nth]; ltb_cases; reflexivity|]).
  lia.
Qed.

Lemma month_of_yday_unique (leap : bool) (m d : Z) :
  0 <= m <= 11 -> 1 <= d <= days_in_month leap m ->
  month_of_yday leap (days_before_month leap m + d - 1) = m.
Proof.
  intros Hm Hd. unfold month_of_yday, days_in_month, days_before_month in *.
  replace (Z.to_nat (m + 1)) with (S (Z.to_nat m)) in Hd by lia.
  rewrite (month_scan_unique leap (Z.to_nat m)); lia.
Qed.

Lemma localtime_yday t :
  let days := t / 86400 in
  let y := year_of_days days in
  0 <= days - days_before_year y < (if is_leap y then 366 else 365).
Proof.
  cbv zeta. pose proof (year_of_days_spec (t / 86400)) as H.
  rewrite days_before_year_succ in H. unfold year_length in H. lia.
Qed.

Lemma localtime_valid t : tm_valid (localtime t).
Proof.
  pose proof (localtime_yday t) as Hy. cbv zeta in Hy.
  pose proof (month_of_yday_spec _ _ Hy) as [Hm Hd].
  unfold tm_valid, localtime; cbn [tm_mon tm_mday tm_hour tm_min tm_sec tm_year].
  replace (1900 + (year_of_days (t / 86400) - 1900))
    with (year_of_days (t / 86400)) by lia.
  unfold days_in_month.
  repeat split; try lia; try zdiv.
Qed.

Lemma mktime_localtime t : mktime (localtime t) = t.
Proof.
  pose proof (localtime_valid t) as (Hm & _).
  unfold mktime.
  rewrite (Z.div_small (tm_mon (localtime t)) 12) by lia.
  rewrite (Z.mod_small (tm_mon (localtime t)) 12) by lia.
  unfold localtime; cbn [tm_mon tm_mday tm_hour tm_min tm_sec tm_year].
  replace (1900 + (year_of_days (t / 86400) - 1900) + 0)
    with (year_of_days (t / 86400)) by lia.
  zdiv.
Qed.

Ltac eval_tables :=
  repeat match goal with
         | |- context [days_in_month ?l ?m] =>
             let v := eval vm_compute in (days_in_month l m) in
             progress change (days_in_month l m) with v
         | |- context [days_before_month ?l ?m] =>
             let v := eval vm_compute in (days_before_month l m) in
             progress change (days_before_month l m) with v
         | H : context [days_in_month ?l ?m] |- _ =>
             let v := eval vm_compute in (days_in_month l m) in
             progress change (days_in_month l m) with v in H
         | H : context [days_before_month ?l ?m] |- _ =>
             let v := eval vm_compute in (days_before_month l m) in
             progress change (days_before_month l m) with v in H
         end.

Lemma localtime_mktime t : tm_valid t -> localtime (mktime t) = t.
Proof.
  destruct t as [s mi h d m y].
  unfold tm_valid; cbn [tm_mon tm_mday tm_hour tm_min tm_sec tm_year].
  intros (Hm & Hd & Hh & Hmi & Hs).
  unfold mktime; cbn [tm_mon tm_mday tm_hour tm_min tm_sec tm_year].
  rewrite (Z.div_small m 12), (Z.mod_small m 12), Z.add_0_r by lia.
  set (Y := 1900 + y) in *.
  set (yd := days_before_month (is_leap Y) m + d - 1).
  set (T := ((days_before_year Y + yd) * 24 + h) * 60 + mi).
  assert (Hdays : (T * 60 + s) / 86400 = days_before_year Y + yd) by (subst T; zdiv).
  assert (Hrem : (T * 60 + s) mod 86400 = (h * 60 + mi) * 60 + s) by (subst T; zdiv).
  assert (Hyd : 0 <= yd < (if is_leap Y then 366 else 365)).
  { subst yd. clear Hdays Hrem T.
    month_split Hm; destruct (is_leap Y); eval_tables; lia. }
  assert (HY : year_of_days (days_before_year Y + yd) = Y).
  { apply year_of_days_unique. rewrite days_before_year_succ.
    unfold year_length. lia. }
  unfold localtime. rewrite Hdays, Hrem. cbv zeta. rewrite HY.
  replace (days_before_year Y + yd - days_before_year Y) with yd by lia.
  subst yd. rewrite (month_of_yday_unique _ _ _ Hm Hd).
  f_equal; try lia; zdiv.
Qed.

(** ** One step of the recurrence calculator *)

Lemma advance_month_unfold time :
  advance_month time =
  from_time_t (mktime (bump_month (localtime (to_time_t time)))).
Proof.
  unfold advance_month, bump_month. cbv zeta.
  cbn [tm_mon set_tm_mon tm_year].
  destruct (tm_mon (localtime (to_time_t time)) + 1 >? 11); reflexivity.
Qed.

Lemma to_time_t_close tp :
  from_time_t (to_time_t tp) - ticks_per_second < tp
    < from_time_t (to_time_t tp) + ticks_per_second.
Proof.
  unfold from_time_t, to_time_t, ticks_per_second.
  Z.quot_rem_to_equations. lia.
Qed.

Lemma to_time_t_from_time_t t : to_time_t (from_time_t t) = t.
Proof.
  unfold from_time_t, to_time_t, ticks_per_second.
  apply Z.quot_mul. discriminate.
Qed.

Lemma mktime_bump_month t :
  0 <= tm_mon t <= 11 ->
  mktime (bump_month t) =
  mktime t + days_in_month (is_leap (1900 + tm_year t)) (tm_mon t) * 86400.
Proof.
  destruct t as [s mi h d m y]. cbn [tm_mon tm_year]. intros Hm.
  unfold bump_month; cbn [tm_mon tm_year].
  destruct (Z.gtb_spec (m + 1) 11) as [Hlast|Hmid].
  - assert (m = 11) by lia. subst m.
    unfold mktime; cbn [tm_mon tm_mday tm_hour tm_min tm_sec tm_year set_tm_mon set_tm_year].
    change (0 / 12) with 0. change (0 mod 12) with 0.
    change (11 / 12) with 0. change (11 mod 12) with 11.
    replace (1900 + (y + 1) + 0) with (1900 + y + 1) by lia.
    rewrite Z.add_0_r, days_before_year_succ. unfold year_length.
    destruct (is_leap (1900 + y)); destruct (is_leap (1900 + y + 1));
      eval_tables; lia.
  - unfold mktime; cbn [tm_mon tm_mday tm_hour tm_min tm_sec tm_year set_tm_mon set_tm_year].
    rewrite (Z.div_small m 12), (Z.mod_small m 12) by lia.
    rewrite (Z.div_small (m + 1) 12), (Z.mod_small (m + 1) 12) by lia.
    rewrite !Z.add_0_r. unfold days_in_month. lia.
Qed.

Lemma mktime_bump_year t :
  0 <= tm_mon t <= 11 ->
  mktime t + 365 * 86400 <= mktime (set_tm_year (tm_year t + 1) t).
Proof.
  destruct t as [s mi h d m y]. cbn [tm_mon tm_year]. intros Hm.
  unfold mktime; cbn [tm_mon tm_mday tm_hour tm_min tm_sec tm_year set_tm_year].
  rewrite (Z.div_small m 12), (Z.mod_small m 12) by lia.
  replace (1900 + (y + 1) + 0) with (1900 + y + 1) by lia.
  rewrite Z.add_0_r, days_before_year_succ. unfold year_length.
  assert (Hl : is_leap (1900 + y) = true -> is_leap (1900 + y + 1) = false).
  { unfold is_leap. intros H.
    apply andb_true_iff in H as [H _]. apply Z.eqb_eq in H.
    destruct (Z.eqb_spec ((1900 + y + 1) mod 4) 0) as [H4|]; [|reflexivity].
    exfalso. revert H H4. zdiv. }
  destruct (is_leap (1900 + y)) eqn:E1.
  - rewrite (Hl eq_refl). month_split Hm; eval_tables; lia.
  - destruct (is_leap (1900 + y + 1)); month_split Hm; eval_tables; lia.
Qed.

Lemma advance_month_gt time : time + hours 24 <= advance_month time.
Proof.
  rewrite advance_month_unfold.
  pose proof (localtime_valid (to_time_t time)) as (Hm & _).
  rewrite (mktime_bump_month _ Hm), mktime_localtime.
  pose proof (days_in_month_bounds
                (is_leap (1900 + tm_year (localtime (to_time_t time)))) _ Hm).
  pose proof (to_time_t_close time) as Hc.
  unfold from_time_t, hours, ticks_per_second in *. lia.
Qed.

Lemma advance_year_gt time : time + hours 24 <= advance_year time.
Proof.
  unfold advance_year.
  pose proof (localtime_valid (to_time_t time)) as (Hm & _).
  pose proof (mktime_bump_year _ Hm) as Hy. rewrite mktime_localtime in Hy.
  pose proof (to_time_t_close time) as Hc.
  unfold from_time_t, hours, ticks_per_second in *. lia.
Qed.

Lemma advance_gt r time time' :
  advance r time = Some time' -> time + hours 24 <= time'.
Proof.
  unfold advance.
  destruct (r =? DAILY); [intros [= <-]; lia|].
  destruct (r =? WEEKLY); [intros [= <-]; unfold hours, ticks_per_second; lia|].
  destruct (r =? MONTHLY); [intros [= <-]; apply advance_month_gt|].
  destruct (r =? YEARLY); [intros [= <-]; apply advance_year_gt|].
  discriminate.
Qed.

(** ** The advance-until-future loop *)

Lemma hours_24_pos : 0 < hours 24.
Proof. reflexivity. Qed.

Lemma loop_enough_fuel r now fuel time :
  (Z.to_nat ((now - time) / hours 24 + 1) < fuel)%nat ->
  exists res, next_occurrence_loop fuel r now time = Some res.
Proof.
  revert time. induction fuel as [|fuel IH]; intros time Hf; [lia|].
  cbn [next_occurrence_loop].
  destruct (Z.leb_spec time now) as [Hle|Hgt]; [|eauto].
  destruct (advance r time) as [time'|] eqn:Ha; [|eauto].
  apply IH. apply advance_gt in Ha.
  pose proof hours_24_pos as HD.
  assert (0 <= (now - time) / hours 24) by (apply Z.div_pos; lia).
  assert ((now - time') / hours 24 + 1 <= (now - time) / hours 24).
  { replace (now - time) with ((now - time - hours 24) + 1 * hours 24) by lia.
    rewrite Z.div_add by lia.
    assert ((now - time') / hours 24 <= (now - time - hours 24) / hours 24)
      by (apply Z.div_le_mono; lia).
    lia. }
  lia.
Qed.

Lemma loop_fuel_mono r now fuel fuel' time res :
  next_occurrence_loop fuel r now time = Some res ->
  (fuel <= fuel')%nat ->
  next_occurrence_loop fuel' r now time = Some res.
Proof.
  revert fuel' time. induction fuel as [|fuel IH]; intros fuel' time; [discriminate|].
  destruct fuel' as [|fuel']; [lia|]. cbn [next_occurrence_loop].
  destruct (time <=? now); [|done].
  destruct (advance r time); [|done].
  intros H Hle. apply IH; [done|lia].
Qed.

Lemma calculateNextOccurrence_loop event now :
  next_occurrence_loop (next_occurrence_budget now (datetime event))
    (recurrence event) now (datetime event)
  = Some (calculateNextOccurrence event now).
Proof.
  unfold calculateNextOccurrence.
  destruct (loop_enough_fuel (recurrence event) now
              (next_occurrence_budget now (datetime event)) (datetime event))
    as [res Hres]; [unfold next_occurrence_budget; lia|].
  rewrite Hres. reflexivity.
Qed.

Lemma advance_daily time : advance DAILY time = Some (time + hours 24).
Proof. unfold advance. reflexivity. Qed.

Lemma advance_weekly time : advance WEEKLY time = Some (time + hours (24 * 7)).
Proof. unfold advance. reflexivity. Qed.

Lemma advance_monthly time : advance MONTHLY time = Some (advance_month time).
Proof. unfold advance. reflexivity. Qed.

Lemma advance_yearly time : advance YEARLY time = Some (advance_year time).
Proof. unfold advance. reflexivity. Qed.

Lemma step_daily time : step DAILY time = time + hours 24.
Proof. unfold step. rewrite advance_daily. reflexivity. Qed.

Lemma step_weekly time : step WEEKLY time = time + hours (24 * 7).
Proof. unfold step. rewrite advance_weekly. reflexivity. Qed.

Lemma step_monthly time : step MONTHLY time = advance_month time.
Proof. unfold step. rewrite advance_monthly. reflexivity. Qed.

Lemma step_yearly time : step YEARLY time = advance_year time.
Proof. unfold step. rewrite advance_yearly. reflexivity. Qed.

Lemma step_recurring r time :
  recurring_kind r -> advance r time = Some (step r time).
Proof.
  intros [-> | [-> | [-> | ->]]].
  - rewrite step_daily. apply advance_daily.
  - rewrite step_weekly. apply advance_weekly.
  - rewrite step_monthly. apply advance_monthly.
  - rewrite step_yearly. apply advance_yearly.
Qed.

Lemma loop_result r now fuel time res :
  next_occurrence_loop fuel r now time = Some res ->
  exists k : nat,
    res = Nat.iter k (step r) time /\
    (forall j : nat, (j < k)%nat -> Nat.iter j (step r) time <= now) /\
    (recurring_kind r -> now < res) /\
    (recurring_kind r -> time <= now -> (0 < k)%nat).
Proof.
  revert time. induction fuel as [|fuel IH]; intros time; [discriminate|].
  cbn [next_occurrence_loop].
  destruct (Z.leb_spec time now) as [Hle|Hgt].
  - destruct (advance r time) as [time'|] eqn:Ha.
    + intros H. destruct (IH _ H) as (k & Hk & Hj & Hnow & _).
      assert (Hs : step r time = time') by (unfold step; rewrite Ha; done).
      exists (S k). rewrite Nat.iter_succ_r, Hs. split; [done|].
      split; [|split; [done|lia]].
      intros [|j] Hlt; [done|]. rewrite Nat.iter_succ_r, Hs. apply Hj. lia.
    + intros [= <-]. exists O. split; [done|]. split; [lia|].
      split; intros Hr; rewrite (step_recurring _ time Hr) in Ha; discriminate.
  - intros [= <-]. exists O. split; [done|]. split; [lia|]. split; lia.
Qed.

Lemma iter_fixed_period (r : RecurrenceType) (p : Z) (k : nat) time :
  (forall t, step r t = t + p) ->
  Nat.iter k (step r) time = time + Z.of_nat k * p.
Proof.
  intros Hs. induction k as [|k IH]; [cbn; lia|].
  rewrite Nat.iter_succ, IH, Hs. lia.
Qed.

Lemma fixed_period_closed_form (r : RecurrenceType) (p now time : Z) (k : nat) :
  0 < p -> (0 < k)%nat ->
  (forall t, step r t = t + p) ->
  (forall j : nat, (j < k)%nat -> Nat.iter j (step r) time <= now) ->
  now < Nat.iter k (step r) time ->
  Nat.iter k (step r) time = time + p * ((now - time) / p + 1).
Proof.
  intros Hp Hk Hs Hj Hnow.
  destruct k as [|k]; [lia|].
  specialize (Hj k ltac:(lia)).
  rewrite (iter_fixed_period r p) in * by done.
  assert ((now - time) / p = Z.of_nat k); [|lia].
  symmetry. apply (Z.div_unique _ _ _ (now - time - Z.of_nat k * p)); lia.
Qed.

(** ** The 64-bit range *)

Lemma wrap64_in_range z :
  time_point_min <= z <= time_point_max -> wrap64 z = z.
Proof. unfold wrap64, time_point_min, time_point_max. intros Hz. zdiv. Qed.

Lemma wrap64_range z : time_point_min <= wrap64 z <= time_point_max.
Proof. unfold wrap64, time_point_min, time_point_max. zdiv. Qed.

Lemma mktime_bump_year_le t :
  0 <= tm_mon t <= 11 ->
  mktime (set_tm_year (tm_year t + 1) t) <= mktime t + 366 * 86400.
Proof.
  destruct t as [s mi h d m y]. cbn [tm_mon tm_year]. intros Hm.
  unfold mktime; cbn [tm_mon tm_mday tm_hour tm_min tm_sec tm_year set_tm_year].
  rewrite (Z.div_small m 12), (Z.mod_small m 12) by lia.
  replace (1900 + (y + 1) + 0) with (1900 + y + 1) by lia.
  rewrite Z.add_0_r, days_before_year_succ. unfold year_length.
  destruct (is_leap (1900 + y)); destruct (is_leap (1900 + y + 1));
    month_split Hm; eval_tables; lia.
Qed.

Lemma advance_month_le time : advance_month time <= time + longest_step.
Proof.
  rewrite advance_month_unfold.
  pose proof (localtime_valid (to_time_t time)) as (Hm & _).
  rewrite (mktime_bump_month _ Hm), mktime_localtime.
  pose proof (days_in_month_bounds
                (is_leap (1900 + tm_year (localtime (to_time_t time)))) _ Hm).
  pose proof (to_time_t_close time) as Hc.
  unfold longest_step, from_time_t, hours, ticks_per_second in *. lia.
Qed.

Lemma advance_year_le time : advance_year time <= time + longest_step.
Proof.
  unfold advance_year.
  pose proof (localtime_valid (to_time_t time)) as (Hm & _).
  pose proof (mktime_bump_year_le _ Hm) as Hy. rewrite mktime_localtime in Hy.
  pose proof (to_time_t_close time) as Hc.
  unfold longest_step, from_time_t, hours, ticks_per_second in *. lia.
Qed.

Lemma advance_le r time time' :
  advance r time = Some time' -> time' <= time + longest_step.
Proof.
  unfold advance.
  destruct (r =? DAILY);
    [intros [= <-]; unfold longest_step, hours, ticks_per_second; lia|].
  destruct (r =? WEEKLY);
    [intros [= <-]; unfold longest_step, hours, ticks_per_second; lia|].
  destruct (r =? MONTHLY); [intros [= <-]; apply advance_month_le|].
  destruct (r =? YEARLY); [intros [= <-]; apply advance_year_le|].
  discriminate.
Qed.

(** Inside the range the 64-bit pass is the pass written in [Z]. *)
Lemma advance64_agrees r time :
  steps_in_range time -> advance64 r time = advance r time.
Proof.
  unfold steps_in_range. intros Ht.
  assert (Hw : forall t', advance r time = Some t' -> wrap64 t' = t').
  { intros t' Ha. apply wrap64_in_range.
    pose proof (advance_gt _ _ _ Ha). pose proof (advance_le _ _ _ Ha).
    pose proof hours_24_pos. lia. }
  revert Hw. unfold advance64, advance.
  destruct (r =? DAILY); [intros Hw; by rewrite (Hw _ eq_refl)|].
  destruct (r =? WEEKLY); [intros Hw; by rewrite (Hw _ eq_refl)|].
  destruct (r =? MONTHLY); [intros Hw; by rewrite (Hw _ eq_refl)|].
  destruct (r =? YEARLY); [intros Hw; by rewrite (Hw _ eq_refl)|].
  done.
Qed.

Lemma loop64_agrees r now fuel time :
  time_point_min <= time ->
  now <= time_point_max - longest_step ->
  next_occurrence_loop64 fuel r now time = next_occurrence_loop fuel r now time.
Proof.
  intros Ht Hnow. revert time Ht.
  induction fuel as [|fuel IH]; intros time Ht; [done|].
  cbn [next_occurrence_loop64 next_occurrence_loop].
  destruct (Z.leb_spec time now) as [Hle|_]; [|done].
  rewrite advance64_agrees by (unfold steps_in_range; lia).
  destruct (advance r time) as [time'|] eqn:Ha; [|done].
  apply IH. apply advance_gt in Ha. pose proof hours_24_pos. lia.
Qed.

(** The candidates the loop visits: all but the last are at most [now],
    and the last is at most one step above [now]. *)
Lemma loop_result_le r now fuel time res :
  next_occurrence_loop fuel r now time = Some res ->
  time <= now -> res <= now + longest_step.
Proof.
  revert time. induction fuel as [|fuel IH]; intros time; [discriminate|].
  cbn [next_occurrence_loop]. intros Hres Hle.
  destruct (Z.leb_spec time now) as [_|Hgt]; [|lia].
  destruct (advance r time) as [time'|] eqn:Ha.
  - destruct (Z.le_gt_cases time' now) as [Hle'|Hgt']; [by eapply IH|].
    destruct fuel as [|fuel]; [discriminate|]. cbn [next_occurrence_loop] in Hres.
    destruct (Z.leb_spec time' now) as [|_]; [lia|].
    injection Hres as <-. apply advance_le in Ha. lia.
  - injection Hres as <-. unfold longest_step, hours, ticks_per_second. lia.
Qed.

Lemma iter_step_ge r k time : time <= Nat.iter k (step r) time.
Proof.
  induction k as [|k IH]; [cbn; lia|].
  rewrite Nat.iter_succ. unfold step at 1.
  destruct (advance r (Nat.iter k (step r) time)) as [t'|] eqn:Ha; [|done].
  apply advance_gt in Ha. pose proof hours_24_pos. lia.
Qed.

(** A DAILY loop whose candidates are congruent to [now] modulo 65536 ns
    cannot leave a window of 1000 ns below the largest time point. *)
Lemma daily_loop64_stuck (fuel : nat) (t : time_point) :
  time_point_min <= t <= time_point_max ->
  (t - (time_point_max - 1000)) mod 65536 = 0 ->
  next_occurrence_loop64 fuel DAILY (time_point_max - 1000) t = None.
Proof.
  revert t. induction fuel as [|fuel IH]; intros t Ht Hmod; [done|].
  cbn [next_occurrence_loop64].
  destruct (Z.leb_spec t (time_point_max - 1000)) as [_|Hgt].
  - change (advance64 DAILY t) with (Some (wrap64 (t + hours 24))).
    apply IH; [apply wrap64_range|].
    revert Hmod. unfold wrap64, hours, ticks_per_second, time_point_max. zdiv.
  - exfalso. revert Ht Hgt Hmod. unfold time_point_max, time_point_min. zdiv.
Qed.

(** ** Claims about the recurrence calculator *)

(** C1 (as amended).  For an event of one of the four recurring kinds
    whose due time is not after [now], with [now] at least [longest_step]
    (367 days) below the largest time point, [calculateNextOccurrence]
    returns a time strictly after [now]; the result is the due time
    advanced by a whole number [k >= 1] of passes of the rule, and it is
    the first such time after [now] (every earlier one is [<= now]).
    Every candidate, the result included, lies inside the 64-bit range,
    so that the loop run in 64-bit arithmetic exits with the same result.
    For a DAILY event the result is
    [due + 24h * (floor (gap / 24h) + 1)] with [gap = now - due], hence
    at most [now + 24h]; likewise with seven days for WEEKLY. *)
Theorem next_occurrence_after_now (event : AlarmEvent) (now : time_point) :
  recurring_kind (recurrence event) ->
  datetime event <= now ->
  time_point_min <= datetime event ->
  now <= time_point_max - longest_step ->
  let due := datetime event in
  let r := recurrence event in
  let res := calculateNextOccurrence event now in
  now < res /\ res <= time_point_max /\
  (exists k : nat,
      (0 < k)%nat /\ res = Nat.iter k (step r) due /\
      (forall j : nat, (j < k)%nat ->
         time_point_min <= Nat.iter j (step r) due /\
         Nat.iter j (step r) due <= now)) /\
  (exists fuel : nat, next_occurrence_loop64 fuel r now due = Some res) /\
  (r = DAILY ->
     res = due + hours 24 * ((now - due) / hours 24 + 1) /\
     res <= now + hours 24) /\
  (r = WEEKLY ->
     res = due + hours (24 * 7) * ((now - due) / hours (24 * 7) + 1)).
Proof.
  intros Hr Hdue Hmin Hmax. cbv zeta.
  pose proof (calculateNextOccurrence_loop event now) as Hloop.
  pose proof (loop_result_le _ _ _ _ _ Hloop Hdue) as Hle.
  assert (H64 : exists fuel : nat,
             next_occurrence_loop64 fuel (recurrence event) now (datetime event)
             = Some (calculateNextOccurrence event now)).
  { eexists. rewrite loop64_agrees by done. exact Hloop. }
  apply loop_result in Hloop as (k & Hk & Hj & Hnow & Hpos).
  specialize (Hnow Hr). specialize (Hpos Hr Hdue).
  split; [done|]. split; [lia|]. split.
  { exists k. split; [done|]. split; [done|]. intros j Hjk.
    pose proof (iter_step_ge (recurrence event) j (datetime event)).
    specialize (Hj j Hjk). lia. }
  split; [done|]. split.
  - intros HD. rewrite HD in *. rewrite Hk in Hnow |- *.
    pose proof step_daily as Hs.
    rewrite (fixed_period_closed_form DAILY (hours 24) now _ k); try done.
    split; [done|].
    pose proof (Z.mul_div_le (now - datetime event) (hours 24) eq_refl).
    pose proof (Z.mod_pos_bound (now - datetime event) (hours 24) eq_refl).
    pose proof (Z.div_mod (now - datetime event) (hours 24)). lia.
  - intros HW. rewrite HW in *. rewrite Hk in Hnow |- *.
    pose proof step_weekly as Hs.
    by rewrite (fixed_period_closed_form WEEKLY (hours (24 * 7)) now _ k).
Qed.

Lemma next_occurrence_after_now_witness :
  let event := mk_event 1 "Pay bill" (civil 2024 1 1 10 0) MONTHLY in
  let now := civil 2024 3 15 0 0 in
  recurring_kind (recurrence event) /\ datetime event <= now /\
  time_point_min <= datetime event /\ now <= time_point_max - longest_step /\
  now < calculateNextOccurrence event now /\
  calculateNextOccurrence event now = civil 2024 4 1 10 0.
Proof.
  cbv zeta. split; [right; right; left; reflexivity|].
  split; [vm_compute; discriminate|].
  split; [vm_compute; discriminate|].
  split; [vm_compute; discriminate|].
  split; [|vm_compute; reflexivity].
  apply (next_occurrence_after_now
           (mk_event 1 "Pay bill" (civil 2024 1 1 10 0) MONTHLY)
           (civil 2024 3 15 0 0)).
  - right; right; left; reflexivity.
  - vm_compute; discriminate.
  - vm_compute; discriminate.
  - vm_compute; discriminate.
Defined.

(** C1 as stated fails: a DAILY event that is due exactly at [now]
    (gap [0], so [ceil (gap / 24h) = 0]) is advanced to [now + 24h], which
    is above the stated bound [due + 24h * ceil (gap / 24h) = due]. *)
Lemma next_occurrence_ceil_bound_fails :
  let event := mk_event 1 "Daily Event" (civil 2024 1 1 10 0) DAILY in
  let now := civil 2024 1 1 10 0 in
  let gap := now - datetime event in
  recurrence event <> NONE /\ datetime event <= now /\
  calculateNextOccurrence event now = civil 2024 1 2 10 0 /\
  datetime event + hours 24 * ceil_div gap (hours 24) = civil 2024 1 1 10 0 /\
  ~ (calculateNextOccurrence event now
       <= datetime event + hours 24 * ceil_div gap (hours 24)).
Proof.
  cbv zeta. split; [discriminate|]. split; [vm_compute; discriminate|].
  split; [vm_compute; reflexivity|]. split; [vm_compute; reflexivity|].
  vm_compute. intros H. apply H. reflexivity.
Qed.




(** C9 (as amended).  [calculateNextOccurrence] terminates whenever [now]
    is at least [longest_step] (367 days) below the largest time point.
    In 64-bit arithmetic, each pass through the switch that continues the
    loop moves a candidate that is not after [now] strictly forward, by
    at least 24 hours, without leaving the range; a recurrence value
    outside the four recurring kinds leaves the loop at once with the
    candidate unchanged, whatever [now] is; and there is an iteration
    count from which the 64-bit loop always exits with the function's
    result. *)
Theorem calculateNextOccurrence_terminates (event : AlarmEvent) (now : time_point) :
  time_point_min <= datetime event ->
  now <= time_point_max - longest_step ->
  (forall t t' : time_point,
      time_point_min <= t <= now ->
      advance64 (recurrence event) t = Some t' ->
      t < t' /\ t + hours 24 <= t' <= time_point_max) /\
  (~ recurring_kind (recurrence event) ->
     forall (now' : time_point) (fuel : nat) (t : time_point),
       next_occurrence_loop64 (S fuel) (recurrence event) now' t = Some t) /\
  exists n : nat,
    forall fuel : nat, (n <= fuel)%nat ->
      next_occurrence_loop64 fuel (recurrence event) now (datetime event)
      = Some (calculateNextOccurrence event now).
Proof.
  intros Hmin Hmax. split; [|split].
  - intros t t' Ht H. rewrite advance64_agrees in H
      by (unfold steps_in_range; lia).
    pose proof (advance_gt _ _ _ H). pose proof (advance_le _ _ _ H).
    pose proof hours_24_pos. lia.
  - intros Hr now' fuel t. cbn [next_occurrence_loop64].
    destruct (t <=? now'); [|done].
    assert (advance64 (recurrence event) t = None) as ->; [|done].
    unfold advance64.
    destruct (Z.eqb_spec (recurrence event) DAILY) as [E|_];
      [exfalso; apply Hr; left; done|].
    destruct (Z.eqb_spec (recurrence event) WEEKLY) as [E|_];
      [exfalso; apply Hr; right; left; done|].
    destruct (Z.eqb_spec (recurrence event) MONTHLY) as [E|_];
      [exfalso; apply Hr; right; right; left; done|].
    destruct (Z.eqb_spec (recurrence event) YEARLY) as [E|_];
      [exfalso; apply Hr; right; right; right; done|].
    done.
  - exists (next_occurrence_budget now (datetime event)). intros fuel Hf.
    rewrite loop64_agrees by done.
    eapply loop_fuel_mono; [apply calculateNextOccurrence_loop|done].
Qed.

Lemma calculateNextOccurrence_terminates_witness :
  let event := mk_event 1 "Standup" (civil 2024 1 1 10 0) DAILY in
  let now := civil 2024 3 15 0 0 in
  exists n : nat,
    forall fuel : nat, (n <= fuel)%nat ->
      next_occurrence_loop64 fuel (recurrence event) now (datetime event)
      = Some (calculateNextOccurrence event now).
Proof.
  cbv zeta.
  destruct (calculateNextOccurrence_terminates
              (mk_event 1 "Standup" (civil 2024 1 1 10 0) DAILY)
              (civil 2024 3 15 0 0)) as (_ & _ & Hn).
  - vm_compute; discriminate.
  - vm_compute; discriminate.
  - exact Hn.
Defined.

(** C9 as stated fails at the end of the range.  For a DAILY event due
    1000 ns before the largest time point, read at that same instant, the
    first addition of 24 hours leaves the 64-bit range: the candidate
    wraps around to a time before the due time.  From there on every
    candidate differs from the due time by a multiple of 65536 ns (24
    hours and 2^64 are both multiples of it), so none falls among the
    1000 time points after [now], and the loop never exits. *)
Lemma next_occurrence_loop64_never_exits :
  let due := time_point_max - 1000 in
  let now := time_point_max - 1000 in
  time_point_min <= due <= time_point_max /\
  time_point_max < due + hours 24 /\
  advance64 DAILY due = Some (due + hours 24 - 18446744073709551616) /\
  due + hours 24 - 18446744073709551616 < due /\
  forall fuel : nat, next_occurrence_loop64 fuel DAILY now due = None.
Proof.
  cbv zeta. split; [vm_compute; split; discriminate|].
  split; [vm_compute; reflexivity|]. split; [vm_compute; reflexivity|].
  split; [vm_compute; reflexivity|].
  intros fuel. apply daily_loop64_stuck.
  - vm_compute. split; discriminate.
  - vm_compute. reflexivity.
Qed.

(** ** Time strings *)

Lemma digit_cases (d : Z) :
  0 <= d <= 9 ->
  d = 0 \/ d = 1 \/ d = 2 \/ d = 3 \/ d = 4 \/ d = 5 \/ d = 6 \/ d = 7 \/
  d = 8 \/ d = 9.
Proof. lia. Qed.

Ltac digit_split H :=
  apply digit_cases in H;
  destruct H as [H|[H|[H|[H|[H|[H|[H|[H|[H|H]]]]]]]]]; subst.

Lemma is_digit_digit_char d : 0 <= d <= 9 -> is_digit (digit_char d) = true.
Proof. intros H. digit_split H; reflexivity. Qed.

Lemma is_space_digit_char d : 0 <= d <= 9 -> is_space (digit_char d) = false.
Proof. intros H. digit_split H; reflexivity. Qed.

Lemma digit_val_digit_char d : 0 <= d <= 9 -> digit_val (digit_char d) = d.
Proof. intros H. digit_split H; reflexivity. Qed.

Lemma forallb_Z_range (P : Z -> bool) (lo n : Z) :
  forallb P (map (fun k => lo + Z.of_nat k) (seq 0 (Z.to_nat n))) = true ->
  forall z, lo <= z < lo + n -> P z = true.
Proof.
  intros H z Hz. rewrite forallb_forall in H. apply H.
  apply in_map_iff. exists (Z.to_nat (z - lo)). split; [lia|].
  apply in_seq. lia.
Qed.

Lemma put_number_two_digits n :
  0 <= n <= 99 -> put_number 2 n = two_digits n EmptyString.
Proof.
  intros H. apply String.eqb_eq.
  apply (forallb_Z_range
           (fun n => String.eqb (put_number 2 n) (two_digits n EmptyString))
           0 100); [vm_compute; reflexivity|lia].
Qed.

Lemma decimal_fuel_four_digits fuel n :
  (4 <= fuel)%nat -> 1000 <= n <= 9999 ->
  decimal_fuel fuel n = four_digits n EmptyString.
Proof.
  intros Hf Hn.
  do 4 (destruct fuel as [|fuel]; [lia|]). clear Hf.
  cbn [decimal_fuel].
  destruct (Z.ltb_spec n 10); [lia|].
  destruct (Z.ltb_spec (n / 10) 10); [exfalso; zdiv|].
  destruct (Z.ltb_spec (n / 10 / 10) 10); [exfalso; zdiv|].
  destruct (Z.ltb_spec (n / 10 / 10 / 10) 10); [|exfalso; zdiv].
  unfold four_digits, two_digits. cbn [String.append].
  replace (n / 10 / 10 / 10) with (n / 1000) by zdiv.
  replace ((n / 10 / 10) mod 10) with (n / 100 mod 10) by zdiv.
  replace ((n / 10) mod 10) with (n mod 100 / 10) by zdiv.
  replace (n mod 100 mod 10) with (n mod 10) by zdiv.
  reflexivity.
Qed.

Lemma put_number_four_digits n :
  1000 <= n <= 9999 -> put_number 1 n = four_digits n EmptyString.
Proof.
  intros Hn. unfold put_number, decimal.
  rewrite Z.abs_eq by lia.
  assert (Hlog : 9 <= Z.log2 n).
  { change 9 with (Z.log2 512). apply Z.log2_le_mono. lia. }
  rewrite decimal_fuel_four_digits by lia.
  destruct (Z.ltb_spec n 0); [lia|]. reflexivity.
Qed.

Lemma extract_num_two_digits n rest min max :
  0 <= n <= 99 -> min <= n <= max ->
  extract_num (two_digits n rest) min max 2 = (rest, Some n).
Proof.
  intros Hn Hr. unfold extract_num, two_digits. cbn [extract_digits].
  assert (Ha : 0 <= n / 10 <= 9) by zdiv.
  assert (Hb : 0 <= n mod 10 <= 9) by zdiv.
  rewrite !is_digit_digit_char, !digit_val_digit_char by done.
  destruct (Z.gtb_spec (0 * 10 + n / 10) max); [exfalso; zdiv|].
  destruct (Z.gtb_spec ((0 * 10 + n / 10) * 10 + n mod 10) max); [exfalso; zdiv|].
  replace ((0 * 10 + n / 10) * 10 + n mod 10) with n by zdiv.
  cbn [Nat.eqb negb andb].
  destruct (Z.leb_spec min n); [|lia]. destruct (Z.leb_spec n max); [|lia].
  reflexivity.
Qed.

Lemma extract_num_four_digits n rest :
  0 <= n <= 9999 ->
  extract_num (four_digits n rest) 0 9999 4 = (rest, Some n).
Proof.
  intros Hn. unfold extract_num, four_digits, two_digits. cbn [extract_digits].
  assert (Ha : 0 <= n / 1000 <= 9) by zdiv.
  assert (Hb : 0 <= n / 100 mod 10 <= 9) by zdiv.
  assert (Hc : 0 <= n mod 100 / 10 <= 9) by zdiv.
  assert (Hd : 0 <= n mod 100 mod 10 <= 9) by zdiv.
  rewrite !is_digit_digit_char, !digit_val_digit_char by done.
  set (v1 := 0 * 10 + n / 1000).
  set (v2 := v1 * 10 + n / 100 mod 10).
  set (v3 := v2 * 10 + n mod 100 / 10).
  set (v4 := v3 * 10 + n mod 100 mod 10).
  assert (H4 : v4 = n) by (subst v4 v3 v2 v1; zdiv).
  assert (H3 : 0 <= v3 <= 9999) by (subst v3 v2 v1; zdiv).
  assert (H2 : 0 <= v2 <= 9999) by (subst v2 v1; zdiv).
  assert (H1 : 0 <= v1 <= 9999) by (subst v1; zdiv).
  destruct (Z.gtb_spec v1 9999); [lia|].
  destruct (Z.gtb_spec v2 9999); [lia|].
  destruct (Z.gtb_spec v3 9999); [lia|].
  destruct (Z.gtb_spec v4 9999); [lia|].
  rewrite H4. cbn [Nat.eqb negb andb].
  destruct (Z.leb_spec 0 n); [|lia]. destruct (Z.leb_spec n 9999); [|lia].
  reflexivity.
Qed.

Lemma append_two_digits n s :
  (two_digits n EmptyString ++ s)%string = two_digits n s.
Proof. reflexivity. Qed.

Lemma append_four_digits n s :
  (four_digits n EmptyString ++ s)%string = four_digits n s.
Proof. reflexivity. Qed.

Lemma strftime_datetime t :
  1000 <= 1900 + tm_year t <= 9999 ->
  0 <= tm_mon t <= 11 -> 1 <= tm_mday t <= 31 ->
  0 <= tm_hour t < 24 -> 0 <= tm_min t < 60 ->
  strftime datetime_format t
  = datetime_text (1900 + tm_year t) (tm_mon t + 1) (tm_mday t)
      (tm_hour t) (tm_min t).
Proof.
  intros Hy Hm Hd Hh Hmi.
  unfold datetime_format, datetime_text. cbn [strftime].
  change (put_conversion "Y" t) with (put_number 1 (1900 + tm_year t)).
  change (put_conversion "m" t) with (put_number 2 (tm_mon t + 1)).
  change (put_conversion "d" t) with (put_number 2 (tm_mday t)).
  change (put_conversion "H" t) with (put_number 2 (tm_hour t)).
  change (put_conversion "M" t) with (put_number 2 (tm_min t)).
  rewrite put_number_four_digits by lia.
  rewrite !put_number_two_digits by lia.
  rewrite append_four_digits, !append_two_digits. reflexivity.
Qed.

Lemma get_conversion_year n rest t :
  0 <= n <= 9999 ->
  get_conversion "Y" (four_digits n rest) t
  = (rest, set_tm_year (n - 1900) t, false).
Proof.
  intros H. unfold get_conversion. cbn [Ascii.eqb Bool.eqb].
  rewrite extract_num_four_digits by done. reflexivity.
Qed.

Lemma get_conversion_month n rest t :
  1 <= n <= 12 ->
  get_conversion "m" (two_digits n rest) t = (rest, set_tm_mon (n - 1) t, false).
Proof.
  intros H. unfold get_conversion. cbn [Ascii.eqb Bool.eqb].
  rewrite extract_num_two_digits by lia. reflexivity.
Qed.

Lemma get_conversion_day n rest t :
  1 <= n <= 31 ->
  get_conversion "d" (two_digits n rest) t = (rest, set_tm_mday n t, false).
Proof.
  intros H. unfold get_conversion. cbn [Ascii.eqb Bool.eqb].
  unfold two_digits at 1. rewrite is_space_digit_char by zdiv.
  fold (two_digits n rest).
  rewrite extract_num_two_digits by lia. reflexivity.
Qed.

Lemma get_conversion_hour n rest t :
  0 <= n <= 23 ->
  get_conversion "H" (two_digits n rest) t = (rest, set_tm_hour n t, false).
Proof.
  intros H. unfold get_conversion. cbn [Ascii.eqb Bool.eqb].
  rewrite extract_num_two_digits by lia. reflexivity.
Qed.

Lemma get_conversion_minute n rest t :
  0 <= n <= 59 ->
  get_conversion "M" (two_digits n rest) t = (rest, set_tm_min n t, false).
Proof.
  intros H. unfold get_conversion. cbn [Ascii.eqb Bool.eqb].
  rewrite extract_num_two_digits by lia. reflexivity.
Qed.

Lemma time_get_conv f ds s t rest t' :
  get_conversion f s t = (rest, t', false) ->
  s <> EmptyString -> rest <> EmptyString ->
  time_get (Conv f :: ds) s t = time_get ds rest t'.
Proof.
  intros Hc Hs Hrest. destruct s as [|c s']; [done|].
  cbn [time_get]. rewrite Hc. destruct rest; [done|]. reflexivity.
Qed.

Lemma time_get_conv_last f s t t' :
  s <> EmptyString ->
  get_conversion f s t = (EmptyString, t', false) ->
  time_get [Conv f] s t = (t', mk_iostate false true).
Proof.
  intros Hs Hc. destruct s as [|c s']; [done|].
  cbn [time_get]. rewrite Hc. reflexivity.
Qed.

Lemma time_get_lit c ds s t :
  lit_match c c = true ->
  time_get (Lit c :: ds) (String c s) t = time_get ds s t.
Proof. intros H. cbn [time_get]. rewrite H. reflexivity. Qed.

Lemma time_get_space ds c s t :
  time_get (Space :: ds) (String c s) t = time_get ds (skip_spaces (String c s)) t.
Proof. reflexivity. Qed.

Lemma get_time_datetime_text y m d H M t :
  0 <= y <= 9999 -> 1 <= m <= 12 -> 1 <= d <= 31 ->
  0 <= H <= 23 -> 0 <= M <= 59 ->
  get_time datetime_format (datetime_text y m d H M) t
  = (set_tm_min M (set_tm_hour H (set_tm_mday d
       (set_tm_mon (m - 1) (set_tm_year (y - 1900) t)))),
     mk_iostate false true).
Proof.
  intros Hy Hm Hd HH HM. unfold get_time, datetime_text.
  assert (Hsk : forall n rest, 0 <= n <= 9999 ->
            skip_spaces (four_digits n rest) = four_digits n rest).
  { intros n rest Hn. unfold four_digits at 1. cbn [skip_spaces].
    rewrite is_space_digit_char by zdiv. reflexivity. }
  assert (Hsk2 : forall n rest, 0 <= n <= 99 ->
            skip_spaces (String " " (two_digits n rest)) = two_digits n rest).
  { intros n rest Hn. unfold two_digits. cbn [skip_spaces].
    change (is_space " ") with true. cbv iota.
    rewrite is_space_digit_char by zdiv. reflexivity. }
  rewrite Hsk by done.
  change (compile_format datetime_format)
    with [Conv "Y"; Lit "-"; Conv "m"; Lit "-"; Conv "d"; Space;
          Conv "H"; Lit ":"; Conv "M"].
  destruct (four_digits y (String "-" (two_digits m (String "-" (two_digits d
    (String " " (two_digits H (String ":" (two_digits M EmptyString))))))))) as [|c0 s0] eqn:E0;
    [discriminate|]. rewrite <- E0. clear E0 c0 s0.
  rewrite (time_get_conv _ _ _ _ _ _ (get_conversion_year _ _ _ Hy))
    by discriminate.
  rewrite time_get_lit by reflexivity.
  rewrite (time_get_conv _ _ _ _ _ _ (get_conversion_month _ _ _ Hm))
    by discriminate.
  rewrite time_get_lit by reflexivity.
  rewrite (time_get_conv _ _ _ _ _ _ (get_conversion_day _ _ _ Hd))
    by discriminate.
  rewrite time_get_space, Hsk2 by lia.
  rewrite (time_get_conv _ _ _ _ _ _ (get_conversion_hour _ _ _ HH))
    by discriminate.
  rewrite time_get_lit by reflexivity.
  apply time_get_conv_last; [discriminate|].
  apply get_conversion_minute. done.
Qed.

Lemma days_before_year_le y1 y2 :
  y1 <= y2 -> days_before_year y1 <= days_before_year y2.
Proof.
  intros H. apply Zle_lt_or_eq in H as [H| ->]; [|lia].
  apply days_before_year_lt in H. lia.
Qed.

Lemma localtime_year_range tp :
  time_point_min <= tp <= time_point_max ->
  1000 <= 1900 + tm_year (localtime (to_time_t tp)) <= 9999.
Proof.
  intros Htp. unfold localtime; cbn [tm_year].
  set (days := to_time_t tp / 86400).
  assert (Hdays : -106752 <= days <= 106751).
  { subst days. unfold to_time_t, ticks_per_second, time_point_min,
      time_point_max in *. Z.quot_rem_to_equations. zdiv. }
  pose proof (year_of_days_spec days) as [Hlo Hhi].
  replace (1900 + (year_of_days days - 1900)) with (year_of_days days) by lia.
  split.
  - destruct (Z.le_gt_cases 1000 (year_of_days days)) as [|Hlt]; [done|].
    pose proof (days_before_year_le (year_of_days days + 1) 1000 ltac:(lia)) as Hm.
    change (days_before_year 1000) with (-354285) in Hm. lia.
  - destruct (Z.le_gt_cases (year_of_days days) 9999) as [|Hgt]; [done|].
    pose proof (days_before_year_le 10000 (year_of_days days) ltac:(lia)) as Hm.
    change (days_before_year 10000) with 2932897 in Hm. lia.
Qed.

Lemma formatDateTime_text tp :
  time_point_min <= tp <= time_point_max ->
  let t := localtime (to_time_t tp) in
  formatDateTime tp
  = datetime_text (1900 + tm_year t) (tm_mon t + 1) (tm_mday t)
      (tm_hour t) (tm_min t).
Proof.
  intros Htp. cbv zeta. unfold formatDateTime.
  pose proof (localtime_valid (to_time_t tp)) as (Hm & Hd & Hh & Hmi & _).
  pose proof (days_in_month_bounds
                (is_leap (1900 + tm_year (localtime (to_time_t tp)))) _ Hm).
  apply strftime_datetime; try lia. by apply localtime_year_range.
Qed.

(** Reading back what [formatDateTime] wrote recovers every calendar
    field it printed and leaves the seconds at zero. *)
Lemma parse_format_fields tp :
  time_point_min <= tp <= time_point_max ->
  let t := localtime (to_time_t tp) in
  get_time datetime_format (formatDateTime tp) tm_zero
  = (mk_tm 0 (tm_min t) (tm_hour t) (tm_mday t) (tm_mon t) (tm_year t),
     mk_iostate false true).
Proof.
  intros Htp. cbv zeta. rewrite formatDateTime_text by done.
  pose proof (localtime_valid (to_time_t tp)) as (Hm & Hd & Hh & Hmi & _).
  pose proof (days_in_month_bounds
                (is_leap (1900 + tm_year (localtime (to_time_t tp)))) _ Hm).
  pose proof (localtime_year_range tp Htp).
  rewrite get_time_datetime_text by lia.
  unfold set_tm_min, set_tm_hour, set_tm_mday, set_tm_mon, set_tm_year, tm_zero.
  cbn [tm_sec tm_min tm_hour tm_mday tm_mon tm_year].
  do 2 f_equal; lia.
Qed.

Lemma parse_format_seconds tp :
  time_point_min <= tp <= time_point_max ->
  parseDateTime (formatDateTime tp)
  = from_time_t (to_time_t tp - to_time_t tp mod 60).
Proof.
  intros Htp. unfold parseDateTime.
  rewrite (parse_format_fields tp Htp). f_equal.
  pose proof (mktime_localtime (to_time_t tp)) as Hmk.
  revert Hmk. set (t := localtime (to_time_t tp)).
  assert (Hsec : tm_sec t = to_time_t tp mod 60).
  { subst t. unfold localtime; cbn [tm_sec]. zdiv. }
  unfold mktime; cbn [tm_sec tm_min tm_hour tm_mday tm_mon tm_year]. lia.
Qed.

Lemma strftime_ignores_seconds s M H d m y :
  strftime datetime_format (mk_tm s M H d m y)
  = strftime datetime_format (mk_tm 0 M H d m y).
Proof. reflexivity. Qed.

(** C10 (as amended).  In a process running in UTC, for every time
    point [tp] that is not within the first minute of the 64-bit range,
    [parseDateTime (formatDateTime tp)] is [tp] cut to whole seconds by
    [to_time_t] (toward zero) and then to the start of that second's
    minute, a value inside the range.  When [tp] is not before the epoch,
    or is a whole number of seconds, this is [tp] truncated to whole
    minutes.  In every case the reloaded time formats to the same string,
    so it denotes the same minute. *)
Theorem parse_format_round_trip (tp : time_point) :
  time_point_min + 60 * ticks_per_second <= tp <= time_point_max ->
  parseDateTime (formatDateTime tp)
    = from_time_t (to_time_t tp - to_time_t tp mod 60) /\
  time_point_min <= parseDateTime (formatDateTime tp) <= time_point_max /\
  (0 <= tp \/ tp mod ticks_per_second = 0 ->
     parseDateTime (formatDateTime tp) = floor_minutes tp) /\
  (0 <= tp -> floor_minutes tp = trunc_minutes tp) /\
  formatDateTime (parseDateTime (formatDateTime tp)) = formatDateTime tp.
Proof.
  intros Hrange.
  assert (Htp : time_point_min <= tp <= time_point_max)
    by (unfold time_point_min, time_point_max, ticks_per_second in *; lia).
  pose proof (parse_format_seconds tp Htp) as Hs.
  split; [done|]. split; [|split; [|split]].
  - rewrite Hs. revert Hrange.
    unfold from_time_t, to_time_t, ticks_per_second, time_point_min,
      time_point_max.
    intros Hrange. Z.quot_rem_to_equations. zdiv.
  - intros Hcase. rewrite Hs.
    unfold floor_minutes, from_time_t, to_time_t, ticks_per_second in *.
    destruct Hcase as [Hpos|Hwhole].
    + rewrite Z.quot_div_nonneg by lia. zdiv.
    + assert (tp ÷ 1000000000 = tp / 1000000000) as ->.
      { Z.quot_rem_to_equations. zdiv. }
      zdiv.
  - intros Hpos. unfold floor_minutes, trunc_minutes, ticks_per_second.
    rewrite Z.quot_div_nonneg by lia. reflexivity.
  - unfold parseDateTime. rewrite (parse_format_fields tp Htp).
    unfold formatDateTime at 1. rewrite to_time_t_from_time_t.
    pose proof (localtime_valid (to_time_t tp)) as Hv.
    unfold formatDateTime. revert Hv.
    destruct (localtime (to_time_t tp)) as [s M H d m y].
    cbn [tm_sec tm_min tm_hour tm_mday tm_mon tm_year]. intros Hv.
    rewrite localtime_mktime; [symmetry; apply strftime_ignores_seconds|].
    unfold tm_valid in *.
    cbn [tm_sec tm_min tm_hour tm_mday tm_mon tm_year] in *. lia.
Qed.

Lemma parse_format_round_trip_witness :
  parseDateTime (formatDateTime (civil 2024 1 1 10 0 + 59999999999))
  = civil 2024 1 1 10 0.
Proof.
  destruct (parse_format_round_trip (civil 2024 1 1 10 0 + 59999999999))
    as (_ & _ & H & _).
  - vm_compute. split; discriminate.
  - rewrite H; [vm_compute; reflexivity|]. left. vm_compute. discriminate.
Defined.

(** C10 as stated fails before the epoch, whichever way "truncated" is
    read.  One nanosecond before the epoch formats as "1970-01-01 00:00"
    and reloads as the epoch itself, one minute after the start of the
    minute that contains it.  Sixty-one seconds before the epoch formats
    as "1969-12-31 23:58" and reloads as 120 seconds before the epoch,
    while truncation toward zero gives 60 seconds before it. *)
Lemma parse_format_before_epoch :
  time_point_min <= -1 <= time_point_max /\
  formatDateTime (-1) = "1970-01-01 00:00"%string /\
  parseDateTime (formatDateTime (-1)) = 0 /\
  floor_minutes (-1) = -60000000000 /\
  formatDateTime (-61000000000) = "1969-12-31 23:58"%string /\
  parseDateTime (formatDateTime (-61000000000)) = -120000000000 /\
  trunc_minutes (-61000000000) = -60000000000.
Proof. vm_compute. repeat split; discriminate. Qed.

(** ** The binary heap *)

Local Close Scope Z_scope.

Ltac elim_div2 :=
  repeat match goal with
         | H : context [?a / 2] |- _ =>
             let q := fresh "q" in
             let r := fresh "r" in
             pose proof (Nat.div_mod_eq a 2);
             pose proof (Nat.mod_upper_bound a 2 (Nat.neq_succ_0 1));
             set (q := a / 2) in *; set (r := a mod 2) in *;
             clearbody q r
         | |- context [?a / 2] =>
             let q := fresh "q" in
             let r := fresh "r" in
             pose proof (Nat.div_mod_eq a 2);
             pose proof (Nat.mod_upper_bound a 2 (Nat.neq_succ_0 1));
             set (q := a / 2) in *; set (r := a mod 2) in *;
             clearbody q r
         end.

Ltac lia2 := elim_div2; lia.

Section ListUpdate.
Context {A : Type}.
Implicit Types (v : list A) (x y d : A).

Lemma nth_insert_eq v i x d : i < length v -> nth i (<[i:=x]> v) d = x.
Proof.
  intros Hi. rewrite nth_lookup, list_lookup_insert_eq by done. reflexivity.
Qed.

Lemma nth_insert_ne v i j x d : i <> j -> nth j (<[i:=x]> v) d = nth j v d.
Proof.
  intros Hne. rewrite !nth_lookup, list_lookup_insert_ne by done. reflexivity.
Qed.

Lemma nth_in_range v i d x : i < length v -> v !! i = Some x -> nth i v d = x.
Proof. intros _ H. by apply nth_lookup_Some. Qed.

Lemma lookup_nth v i d : i < length v -> v !! i = Some (nth i v d).
Proof.
  intros Hi. destruct (nth_lookup_or_length v i d) as [H|H]; [done|lia].
Qed.

(** Overwriting a position with a new element trades the old element
    for the new one. *)
Lemma insert_trade v i x y :
  v !! i = Some y -> y :: <[i:=x]> v ≡ₚ x :: v.
Proof.
  revert i. induction v as [|a v IH]; intros [|i] Hi; simplify_eq/=.
  - apply perm_swap.
  - rewrite perm_swap. rewrite (IH _ Hi). apply perm_swap.
Qed.

(** Exchanging the contents of two positions permutes the vector. *)
Lemma insert_exchange v i j x y :
  i <> j -> v !! i = Some x -> v !! j = Some y ->
  <[j:=x]> (<[i:=y]> v) ≡ₚ v.
Proof.
  revert i j. induction v as [|a v IH]; intros [|i] [|j] Hne Hi Hj;
    simplify_eq/=.
  - by apply insert_trade.
  - by apply insert_trade.
  - apply perm_skip. apply IH; [congruence|done|done].
Qed.

(** Moving the hole from [h] to [p]: the vector with [value] placed in
    the hole is permuted. *)
Lemma hole_move v h p value d :
  h <> p -> h < length v -> p < length v ->
  <[p:=value]> (<[h:=nth p v d]> v) ≡ₚ <[h:=value]> v.
Proof.
  intros Hne Hh Hp.
  set (w := <[h:=value]> v).
  assert (Hwh : w !! h = Some value) by (by apply list_lookup_insert_eq).
  assert (Hwp : w !! p = Some (nth p v d)).
  { unfold w. rewrite list_lookup_insert_ne by done. by apply lookup_nth. }
  replace (<[h:=nth p v d]> v) with (<[h:=nth p v d]> w)
    by (unfold w; apply list_insert_insert_eq).
  by apply insert_exchange.
Qed.
End ListUpdate.

Section HeapProofs.
Context {A : Type} (key : A -> Z) (comp : A -> A -> bool).
Hypothesis comp_key : forall a b, comp a b = (key b <? key a)%Z.
Implicit Types (v first : list A) (value d : A).

(** *** Sifting a value up *)

Lemma push_heap_loop_length fuel first hole top value :
  length (push_heap_loop comp fuel first hole top value) = length first.
Proof.
  revert first hole. induction fuel as [|fuel IH]; intros first hole;
    cbn [push_heap_loop]; [by rewrite length_insert|].
  destruct (_ && _); [|by rewrite length_insert].
  rewrite IH. by rewrite length_insert.
Qed.

(** Positions above the hole are not touched. *)
Lemma push_heap_loop_frame fuel first hole top value j d :
  hole < j ->
  nth j (push_heap_loop comp fuel first hole top value) d = nth j first d.
Proof.
  revert first hole. induction fuel as [|fuel IH]; intros first hole Hj;
    cbn [push_heap_loop]; [by rewrite nth_insert_ne by lia|].
  destruct (_ && _); [|by rewrite nth_insert_ne by lia].
  rewrite IH by lia2. by rewrite nth_insert_ne by lia.
Qed.

Lemma push_heap_loop_perm fuel first hole value :
  hole < length first ->
  push_heap_loop comp fuel first hole 0 value ≡ₚ <[hole:=value]> first.
Proof.
  revert first hole. induction fuel as [|fuel IH]; intros first hole Hh;
    cbn [push_heap_loop]; [done|].
  destruct (0 <? hole) eqn:Hpos; cbn [andb]; [|done].
  destruct (comp _ _); [|done].
  apply Nat.ltb_lt in Hpos.
  rewrite IH by (rewrite length_insert; lia2).
  apply hole_move; lia2.
Qed.

Lemma push_heap_loop_heap fuel first hole value len :
  hole <= fuel -> hole < len <= length first ->
  hole_inv key len hole first -> below_children key len hole value first ->
  heap_upto key len (push_heap_loop comp fuel first hole 0 value).
Proof.
  revert first hole.
  induction fuel as [|fuel IH]; intros first hole Hf Hlen [Ha Hc] Hb.
  - assert (hole = 0) as -> by lia. cbn [push_heap_loop].
    intros i d Hi.
    rewrite (nth_insert_ne _ 0 i) by lia.
    destruct (decide ((i - 1) / 2 = 0)) as [Hp|Hp].
    + rewrite Hp, nth_insert_eq by lia. by apply Hb.
    + rewrite nth_insert_ne by lia. apply Ha; lia.
  - cbn [push_heap_loop].
    destruct (Nat.ltb_spec 0 hole) as [Hpos|Hzero]; cbn [andb].
    + rewrite comp_key.
      destruct (Z.ltb_spec (key value) (key (nth ((hole - 1) / 2) first value)))
        as [Hlt|Hge].
      * (* the parent moves down into the hole *)
        set (p := (hole - 1) / 2) in *.
        assert (Hp : p < hole) by (subst p; lia2).
        apply IH; [lia|rewrite length_insert; lia| |].
        -- split.
           ++ intros i d Hi Hip Hpp.
              destruct (decide (i = hole)) as [->|Hih]; [done|].
              rewrite (nth_insert_ne _ hole i) by done.
              destruct (decide ((i - 1) / 2 = hole)) as [Hph|Hph].
              ** rewrite Hph, nth_insert_eq by lia.
                 rewrite (nth_indep first value d) by lia.
                 by apply Hc.
              ** rewrite nth_insert_ne by done. by apply Ha.
           ++ intros i d Hi Hip Hppos.
              assert (Hpp : (p - 1) / 2 < p) by lia2.
              rewrite (nth_insert_ne _ hole ((p - 1) / 2)) by lia.
              assert (Hgp : (key (nth ((p - 1) / 2) first d)
                             <= key (nth p first d))%Z) by (apply Ha; lia).
              destruct (decide (i = hole)) as [->|Hih].
              ** rewrite nth_insert_eq by lia.
                 by rewrite (nth_indep first value d) by lia.
              ** rewrite nth_insert_ne by done.
                 assert (key (nth p first d) <= key (nth i first d))%Z; [|lia].
                 rewrite <- Hip. apply Ha; lia.
        -- intros i d Hi Hip.
           destruct (decide (i = hole)) as [->|Hih].
           ++ rewrite nth_insert_eq by lia. lia.
           ++ rewrite nth_insert_ne by done.
              assert (key (nth p first d) <= key (nth i first d))%Z.
              { rewrite <- Hip. apply Ha; lia. }
              rewrite (nth_indep first value d) in Hlt by lia. lia.
      * (* the value is stored in the hole *)
        intros i d Hi.
        destruct (decide (i = hole)) as [->|Hih].
        -- rewrite nth_insert_eq by lia.
           rewrite nth_insert_ne by lia2.
           rewrite (nth_indep first value d) in Hge by lia2. done.
        -- rewrite (nth_insert_ne _ hole i) by done.
           destruct (decide ((i - 1) / 2 = hole)) as [Hph|Hph].
           ++ rewrite Hph, nth_insert_eq by lia. by apply Hb.
           ++ rewrite nth_insert_ne by done. by apply Ha.
    + assert (hole = 0) as -> by lia. intros i d Hi.
      rewrite (nth_insert_ne _ 0 i) by lia.
      destruct (decide ((i - 1) / 2 = 0)) as [Hp|Hp].
      * rewrite Hp, nth_insert_eq by lia. by apply Hb.
      * rewrite nth_insert_ne by lia. apply Ha; lia.
Qed.

(** *** Sifting the hole down *)

Lemma adjust_heap_loop_spec fuel first hole len value :
  hole < len <= length first -> len - hole <= fuel ->
  hole_inv key len hole first ->
  forall first' hole',
    adjust_heap_loop comp fuel first hole len value = (first', hole') ->
    hole <= hole' < len /\ ~ hole' < (len - 1) / 2 /\
    length first' = length first /\
    hole_inv key len hole' first' /\
    <[hole':=value]> first' ≡ₚ <[hole:=value]> first /\
    (forall j d, len <= j -> nth j first' d = nth j first d).
Proof.
  revert first hole.
  induction fuel as [|fuel IH]; intros first hole Hlen Hf [Ha Hc] first' hole';
    [lia|].
  cbn [adjust_heap_loop].
  destruct (Nat.ltb_spec hole ((len - 1) / 2)) as [Hlt|Hge].
  - set (sc := 2 * (hole + 1)).
    assert (Hsc : sc < len) by (subst sc; lia2).
    rewrite comp_key.
    assert (exists c,
               (if (key (nth (sc - 1) first value) <? key (nth sc first value))%Z
                then sc - 1 else sc) = c /\
               (c = sc - 1 \/ c = sc) /\
               forall i d, 0 < i < len -> (i - 1) / 2 = hole ->
                 (key (nth c first d) <= key (nth i first d))%Z)
      as (c & -> & Hc1 & Hmin).
    { destruct (Z.ltb_spec (key (nth (sc - 1) first value))
                  (key (nth sc first value))) as [Hcmp|Hcmp];
        eexists; (split; [reflexivity|]); (split; [tauto|]);
        intros i d Hi Hip;
        rewrite (nth_indep first value d) in Hcmp by lia;
        rewrite (nth_indep first value d) in Hcmp by lia;
        (assert (i = sc - 1 \/ i = sc) as [-> | ->] by (subst sc; lia2)); lia. }
    assert (Hcp : (c - 1) / 2 = hole) by (subst sc; lia2).
    intros Hrun.
    apply IH in Hrun; [|rewrite length_insert; lia|lia|].
    + destruct Hrun as (Hh' & Hstop & Hlen' & Hinv & Hperm & Hframe).
      rewrite length_insert in Hlen'.
      split; [lia|]. split; [done|]. split; [done|]. split; [done|].
      split.
      * rewrite Hperm. apply hole_move; lia.
      * intros j d Hj. rewrite Hframe by done. apply nth_insert_ne. lia.
    + split.
      * intros i d Hi Hic Hpc.
        destruct (decide (i = hole)) as [->|Hih].
        -- rewrite nth_insert_eq by lia.
           rewrite nth_insert_ne by lia2.
           rewrite (nth_indep first value d) by lia.
           apply Hc; [lia|done|lia].
        -- rewrite (nth_insert_ne _ hole i) by done.
           destruct (decide ((i - 1) / 2 = hole)) as [Hph|Hph].
           ++ rewrite Hph, nth_insert_eq by lia.
              rewrite (nth_indep first value d) by lia. by apply Hmin.
           ++ rewrite nth_insert_ne by done. by apply Ha.
      * intros i d Hi Hip _. rewrite Hcp.
        rewrite nth_insert_eq by lia.
        rewrite nth_insert_ne by lia2.
        rewrite (nth_indep first value d) by lia.
        rewrite <- Hip. apply Ha; lia2.
  - intros [= <- <-]. repeat split; try done; lia.
Qed.

Lemma std_adjust_heap_spec first len value :
  0 < len <= length first ->
  hole_inv key len 0 first ->
  heap_upto key len (std_adjust_heap comp first 0 len value) /\
  length (std_adjust_heap comp first 0 len value) = length first /\
  std_adjust_heap comp first 0 len value ≡ₚ <[0:=value]> first /\
  (forall j d, len <= j ->
      nth j (std_adjust_heap comp first 0 len value) d = nth j first d).
Proof.
  intros Hlen Hinv. unfold std_adjust_heap.
  destruct (adjust_heap_loop comp len first 0 len value) as [first1 hole1] eqn:E1.
  apply adjust_heap_loop_spec in E1; [|lia|lia|done].
  destruct E1 as (Hh1 & Hstop & Hlen1 & [Ha Hc] & Hperm & Hframe).
  destruct (Nat.even len && (2 <=? len) && (hole1 =? (len - 2) / 2)) eqn:Hodd.
  - (* a last child without sibling *)
    apply andb_true_iff in Hodd as [Hodd Hh]. apply andb_true_iff in Hodd as [He H2].
    apply Nat.eqb_eq in Hh. apply Nat.leb_le in H2.
    apply Nat.even_spec in He as [k Hk].
    assert (Hlast : 2 * (hole1 + 1) - 1 = len - 1) by lia2.
    rewrite Hlast. set (c := len - 1) in *.
    assert (Hcp : (c - 1) / 2 = hole1) by (subst c; lia2).
    assert (Honly : forall i, 0 < i < len -> (i - 1) / 2 = hole1 -> i = c)
      by (intros i Hi Hip; subst c; lia2).
    unfold std_push_heap_aux. repeat split.
    + apply push_heap_loop_heap;
        [lia|rewrite length_insert; lia| |].
      * split.
        -- intros i d Hi Hic Hpc.
           destruct (decide (i = hole1)) as [->|Hih].
           ++ rewrite nth_insert_eq by lia.
              rewrite nth_insert_ne by lia2.
              rewrite (nth_indep first1 value d) by lia.
              apply Hc; [lia|done|lia].
           ++ rewrite (nth_insert_ne _ hole1 i) by done.
              destruct (decide ((i - 1) / 2 = hole1)) as [Hph|Hph];
                [by apply Honly in Hph|].
              rewrite nth_insert_ne by done. by apply Ha.
        -- intros i d Hi Hip _. subst c. lia2.
      * intros i d Hi Hip. subst c. lia2.
    + rewrite push_heap_loop_length, length_insert. lia.
    + rewrite push_heap_loop_perm by (rewrite length_insert; lia).
      rewrite hole_move by lia. done.
    + intros j d Hj. rewrite push_heap_loop_frame by lia.
      rewrite nth_insert_ne by lia. by apply Hframe.
  - (* the hole has no child *)
    assert (Hleaf : forall i, 0 < i < len -> (i - 1) / 2 <> hole1).
    { intros i Hi Hip.
      apply andb_false_iff in Hodd as [Hodd|Hh].
      - apply andb_false_iff in Hodd as [He|H2].
        + assert (Nat.odd len = true) as Ho
            by (rewrite <- Nat.negb_even, He; done).
          apply Nat.odd_spec in Ho as [k Hk]. lia2.
        + apply Nat.leb_gt in H2. lia.
      - apply Nat.eqb_neq in Hh. lia2. }
    unfold std_push_heap_aux. repeat split.
    + apply push_heap_loop_heap; [lia|lia|done|].
      intros i d Hi Hip. by apply Hleaf in Hip.
    + by rewrite push_heap_loop_length.
    + by rewrite push_heap_loop_perm by lia.
    + intros j d Hj. rewrite push_heap_loop_frame by lia. by apply Hframe.
Qed.

(** *** The queue operations *)

Lemma is_heap_nil : is_heap key (@nil A).
Proof. intros i d Hi. cbn in Hi. lia. Qed.

Lemma pq_push_perm (c : list A) (x : A) : pq_push comp c x ≡ₚ x :: c.
Proof.
  unfold pq_push, std_push_heap, std_push_heap_aux.
  rewrite last_snoc, length_app. cbn [length].
  replace (length c + 1 - 1) with (length c) by lia.
  rewrite push_heap_loop_perm by (rewrite length_app; cbn; lia).
  rewrite list_insert_id.
  - by rewrite Permutation_app_comm.
  - rewrite lookup_app_r by lia. by rewrite Nat.sub_diag.
Qed.

Lemma pq_push_spec (c : list A) (x : A) :
  is_heap key c ->
  is_heap key (pq_push comp c x) /\ pq_push comp c x ≡ₚ x :: c.
Proof.
  intros Hheap. unfold pq_push, std_push_heap, std_push_heap_aux.
  rewrite last_snoc, length_app. cbn [length].
  replace (length c + 1 - 1) with (length c) by lia.
  split.
  - unfold is_heap. rewrite push_heap_loop_length, length_app. cbn [length].
    apply push_heap_loop_heap; [lia|rewrite length_app; cbn; lia| |].
    + split.
      * intros i d Hi Hne Hpne.
        rewrite !app_nth1 by lia2. apply Hheap. lia.
      * intros i d Hi Hip Hpos. lia2.
    + intros i d Hi Hip. lia2.
  - rewrite push_heap_loop_perm by (rewrite length_app; cbn; lia).
    rewrite list_insert_id.
    + by rewrite Permutation_app_comm.
    + rewrite lookup_app_r by lia. by rewrite Nat.sub_diag.
Qed.

Lemma pq_pop_spec (c : list A) (top : A) (rest : list A) :
  c = top :: rest ->
  is_heap key c ->
  is_heap key (pq_pop comp c) /\ c ≡ₚ top :: pq_pop comp c /\
  length (pq_pop comp c) = length rest.
Proof.
  intros Hc Hheap. unfold pq_pop, std_pop_heap.
  destruct (Nat.ltb_spec 1 (length c)) as [Hlong|Hshort].
  - assert (Hlast : last c = Some (nth (length c - 1) c top)).
    { rewrite last_lookup. replace (pred (length c)) with (length c - 1) by lia.
      apply lookup_nth. lia. }
    rewrite Hlast. set (value := nth (length c - 1) c top).
    set (n := length c - 1) in *.
    assert (std_pop_heap_aux comp c n value
            = std_adjust_heap comp (<[n:=top]> c) 0 n value) as ->
      by (rewrite Hc; reflexivity).
    destruct (std_adjust_heap_spec (<[n:=top]> c) n value) as (Hh & Hl & Hp & Hf).
    { rewrite length_insert. lia. }
    { split.
      - intros i d Hi Hne Hpne. rewrite !nth_insert_ne by lia2.
        apply Hheap. lia.
      - intros i d Hi Hip Hpos. lia. }
    set (R := std_adjust_heap comp (<[n:=top]> c) 0 n value) in *.
    rewrite length_insert in Hl.
    assert (Htake : removelast R = take n R).
    { rewrite removelast_firstn_len. f_equal. lia. }
    assert (HR : R = take n R ++ [top]).
    { rewrite <- (take_drop n R) at 1. f_equal.
      assert (Hd : length (drop n R) = 1) by (rewrite length_drop; lia).
      destruct (drop n R) as [|y [|? ?]] eqn:Ed; cbn in Hd; try lia.
      f_equal.
      assert (R !! n = Some y) as Hy.
      { rewrite <- (Nat.add_0_r n), <- lookup_drop, Ed. reflexivity. }
      apply (nth_lookup_Some _ _ top) in Hy. rewrite <- Hy.
      rewrite Hf by lia. apply nth_insert_eq. lia. }
    rewrite Htake. split; [|split].
    + unfold is_heap. rewrite length_take, Hl.
      replace (n `min` length c) with n by lia.
      intros i d Hi. rewrite !nth_lookup, !lookup_take_lt by lia2.
      rewrite <- !nth_lookup. by apply Hh.
    + rewrite Permutation_cons_append, <- HR, Hp.
      symmetry. apply insert_exchange; [lia| |].
      * apply lookup_nth. lia.
      * by rewrite Hc.
    + rewrite length_take, Hl.
      assert (length c = S (length rest)) by (rewrite Hc; reflexivity).
      lia.
  - assert (rest = []) as ->.
    { rewrite Hc in Hshort. cbn [length] in Hshort.
      destruct rest; [done|cbn in Hshort; lia]. }
    rewrite Hc. cbn. split; [apply is_heap_nil|]. split; done.
Qed.

(** The front of a heap ranks at or below every element. *)
Lemma heap_front_least (c : list A) (top : A) (rest : list A) :
  c = top :: rest -> is_heap key c ->
  forall x, x ∈ c -> (key top <= key x)%Z.
Proof.
  intros Hc Hheap.
  assert (Hidx : forall i, i < length c ->
            (key top <= key (nth i c top))%Z).
  { intros i. induction i as [i IH] using lt_wf_ind. intros Hi.
    destruct (decide (i = 0)) as [->|Hpos]; [rewrite Hc; cbn; lia|].
    specialize (IH ((i - 1) / 2) ltac:(lia2) ltac:(lia2)).
    specialize (Hheap i top ltac:(lia)). lia. }
  intros x Hx. apply list_elem_of_lookup in Hx as [i Hi].
  pose proof (lookup_lt_Some _ _ _ Hi) as Hlt.
  specialize (Hidx i Hlt). by rewrite (nth_lookup_Some _ _ _ _ Hi) in Hidx.
Qed.
End HeapProofs.

(** *** Sizes, whatever the contents *)

Section HeapLength.
Context {A : Type} (comp : A -> A -> bool).

Lemma adjust_heap_loop_length fuel (first : list A) hole len value :
  length (adjust_heap_loop comp fuel first hole len value).1 = length first.
Proof.
  revert first hole. induction fuel as [|fuel IH]; intros first hole;
    cbn [adjust_heap_loop]; [done|].
  destruct (Nat.ltb hole ((len - 1) / 2)); [|done].
  rewrite IH. apply length_insert.
Qed.

Lemma std_adjust_heap_length (first : list A) hole len value :
  length (std_adjust_heap comp first hole len value) = length first.
Proof.
  unfold std_adjust_heap.
  pose proof (adjust_heap_loop_length len first hole len value) as Hloop.
  destruct (adjust_heap_loop comp len first hole len value) as [first1 hole1].
  cbn [fst] in Hloop.
  destruct (Nat.even len && Nat.leb 2 len && Nat.eqb hole1 ((len - 2) / 2));
    unfold std_push_heap_aux; rewrite push_heap_loop_length;
    [rewrite length_insert|]; done.
Qed.

Lemma pq_pop_length (c : list A) : length (pq_pop comp c) = pred (length c).
Proof.
  unfold pq_pop, std_pop_heap.
  assert (Hrm : forall l : list A, length (removelast l) = pred (length l)).
  { intros l. rewrite removelast_firstn_len, length_take. lia. }
  rewrite Hrm. f_equal.
  destruct (Nat.ltb 1 (length c)); [|done].
  destruct (last c) as [value|]; [|done].
  unfold std_pop_heap_aux. destruct c as [|top rest]; [done|].
  rewrite std_adjust_heap_length. apply length_insert.
Qed.
End HeapLength.

(** ** The scheduler *)

Local Open Scope Z_scope.

Lemma event_gt_key a b : event_gt a b = (datetime b <? datetime a).
Proof. reflexivity. Qed.

Lemma events_push_spec ev e :
  events_heap ev ->
  events_heap (events_push ev e) /\ events_push ev e ≡ₚ e :: ev.
Proof. apply (pq_push_spec datetime event_gt event_gt_key). Qed.

Lemma events_pop_spec ev top rest :
  ev = top :: rest -> events_heap ev ->
  events_heap (events_pop ev) /\ ev ≡ₚ top :: events_pop ev /\
  length (events_pop ev) = length rest.
Proof. apply (pq_pop_spec datetime event_gt event_gt_key). Qed.

Lemma events_front_least ev top rest :
  ev = top :: rest -> events_heap ev ->
  forall e, e ∈ ev -> datetime top <= datetime e.
Proof. apply (heap_front_least datetime). Qed.

(** Draining a heap lists its elements by due time. *)
Lemma getEvents_loop_spec fuel temp result :
  events_heap temp -> (length temp <= fuel)%nat ->
  exists es : list AlarmEvent,
    es ≡ₚ temp /\ StronglySorted by_due_time es /\
    getEvents_loop fuel temp result = (result ++ map display es)%list.
Proof.
  revert temp result. induction fuel as [|fuel IH]; intros temp result Hheap Hfuel.
  - destruct temp; [|cbn in Hfuel; lia].
    exists []. cbn. rewrite app_nil_r. repeat split; constructor.
  - destruct temp as [|top rest] eqn:Etemp.
    { exists []. cbn. rewrite app_nil_r. repeat split; constructor. }
    rewrite <- Etemp in *.
    destruct (events_pop_spec temp top rest Etemp Hheap) as (Hheap' & Hperm & Hlen).
    destruct (IH (events_pop temp) (result ++ [display top])%list Hheap')
      as (es & Hes & Hsorted & Hrun).
    { rewrite Hlen. rewrite Etemp in Hfuel. cbn in Hfuel. lia. }
    exists (top :: es). split; [|split].
    + rewrite Hperm. by constructor.
    + constructor; [done|].
      apply Forall_forall. intros e He.
      apply (events_front_least temp top rest Etemp Hheap).
      rewrite Hperm. right. by rewrite <- Hes.
    + rewrite Etemp at 1. cbn [getEvents_loop]. rewrite <- Etemp, Hrun.
      rewrite <- app_assoc. reflexivity.
Qed.

(** The loop of [getEvents] produces one entry per element of the copy
    it drains. *)
Lemma getEvents_loop_length fuel temp result :
  (length temp <= fuel)%nat ->
  length (getEvents_loop fuel temp result) = (length result + length temp)%nat.
Proof.
  revert temp result. induction fuel as [|fuel IH]; intros temp result Hfuel.
  - destruct temp; [cbn; lia|cbn in Hfuel; lia].
  - destruct temp as [|top rest]; [cbn; lia|].
    cbn [getEvents_loop]. rewrite IH.
    + unfold events_pop. rewrite pq_pop_length, length_app. cbn. lia.
    + unfold events_pop. rewrite pq_pop_length. cbn in *. lia.
Qed.

Section SchedulerProofs.
Context {DB : Type} `{Database DB}.
Implicit Types (s : AlarmSystem DB).

Lemma loadAlarms_loop_spec saved clock k ev :
  events_heap ev ->
  events_heap (loadAlarms_loop saved clock k ev) /\
  loadAlarms_loop saved clock k ev ≡ₚ (loaded_records saved clock k ++ ev)%list.
Proof.
  revert k ev. induction saved as [|alarm rest IH]; intros k ev Hheap.
  - cbn. done.
  - cbn [loadAlarms_loop loaded_records]. unfold loaded_record.
    destruct (negb (recurrence alarm =? NONE)).
    + destruct (events_push_spec ev
                  (mk_event (id alarm) (description alarm)
                     (calculateNextOccurrence alarm (clock k)) (recurrence alarm))
                  Hheap) as [Hh Hp].
      destruct (IH (S k) _ Hh) as [Hh' Hp'].
      split; [done|]. rewrite Hp', Hp. cbn. by rewrite Permutation_middle.
    + destruct (datetime alarm >? clock k).
      * destruct (events_push_spec ev alarm Hheap) as [Hh Hp].
        destruct (IH (S k) _ Hh) as [Hh' Hp'].
        split; [done|]. rewrite Hp', Hp. cbn. by rewrite Permutation_middle.
      * by apply IH.
Qed.

Lemma loadAlarms_heap s clock :
  events_heap (events s) -> events_heap (events (loadAlarms s clock).1.1).
Proof.
  intros Hheap. unfold loadAlarms.
  destruct (db_loadAlarms (db s)) as [db' [saved|[what|what|what]]]; cbn; try done.
  by apply loadAlarms_loop_spec.
Qed.

Lemma addEvent_heap s description datetime_str recurrence :
  events_heap (events s) ->
  events_heap (events (addEvent s description datetime_str recurrence).1.1).
Proof.
  intros Hheap. unfold addEvent.
  destruct (db_addAlarm (db s) description datetime_str recurrence)
    as [db' [id|[what|what|what]]]; cbn; try done.
  by apply events_push_spec.
Qed.

Lemma checkAlarms_pass_heap s now now' :
  events_heap (events s) ->
  events_heap (events (checkAlarms_pass s now now').1.1).
Proof.
  intros Hheap. unfold checkAlarms_pass.
  destruct (events s) as [|next_event rest] eqn:Eev; [cbn; by rewrite Eev|].
  destruct (datetime next_event <=? now); [|cbn; by rewrite Eev].
  destruct (events_pop_spec _ _ _ eq_refl Hheap) as (Hpop & _ & _).
  destruct (negb (recurrence next_event =? NONE)); [|done].
  destruct (db_updateAlarmDateTime _ _ _) as [db' [u|[what|what|what]]];
    cbn; try done.
  by apply events_push_spec.
Qed.

Lemma reachable_heap s : reachable s -> events_heap (events s).
Proof.
  induction 1 as [database clock|s d t r _ IH|s now now' _ IH].
  - apply loadAlarms_heap. apply is_heap_nil.
  - by apply addEvent_heap.
  - by apply checkAlarms_pass_heap.
Qed.

Lemma submit_all_reachable s requests :
  reachable s -> reachable (submit_all s requests).
Proof.
  revert s. induction requests as [|[[d t] r] rest IH]; intros s Hs; [done|].
  cbn [submit_all]. apply IH. by constructor.
Qed.
End SchedulerProofs.

(** ** Claims about the scheduler *)

Section SchedulerClaims.
Context {DB : Type} `{Database DB}.
Implicit Types (s : AlarmSystem DB).


(** C8.  [getEvents] leaves the object as it found it: the loop drains
    [temp], a copy of the member queue, and produces one entry for each
    queued event while the member queue keeps all of them; a second call
    made right after the first returns the same listing. *)
Theorem getEvents_read_only s :
  (getEvents s).2 = s /\
  events (getEvents s).2 = events s /\
  length (getEvents s).1 = length (events s) /\
  (getEvents (getEvents s).2).1 = (getEvents s).1.
Proof.
  split; [reflexivity|]. split; [reflexivity|]. split; [|reflexivity].
  unfold getEvents. cbn [fst]. by rewrite getEvents_loop_length.
Qed.

(** C4.  When the durable write of [addEvent] leaves by an exception, so
    does [addEvent] (a [DatabaseException] is rethrown as the
    [AlarmSystemException] "Failed to add event: ...", any other exception
    passes through); the queue is exactly what it was and the checker is not
    notified.  In the SQLite-backed database a failed insert leaves the
    table as it was, so store and table still agree. *)
Theorem addEvent_failure_leaves_store s description datetime_str recurrence
    (db' : DB) (e : exn) :
  db_addAlarm (db s) description datetime_str recurrence = (db', Thrown e) ->
  let '(s', result, effects) := addEvent s description datetime_str recurrence in
  events s' = events s /\ running s' = running s /\ db s' = db' /\
  result = Thrown (match e with
                   | DatabaseException what =>
                       AlarmSystemException ("Failed to add event: " ++ what)
                   | _ => e
                   end) /\
  (NotifyOne ∉ effects) /\
  (forall (d d' : Sqlite) (e' : exn),
      sqlite_addAlarm d description datetime_str recurrence = (d', Thrown e') ->
      rows d' = rows d).
Proof.
  intros Hdb. unfold addEvent. rewrite Hdb.
  assert (Hsql : forall (d d' : Sqlite) (e' : exn),
             sqlite_addAlarm d description datetime_str recurrence
             = (d', Thrown e') -> rows d' = rows d).
  { intros d d' e'. unfold sqlite_addAlarm, next_fault.
    destruct (faults d) as [|[[m|m]|] fs]; cbn; intros [= <- _]; reflexivity. }
  destruct e as [what|what|what]; cbn; repeat split; try done;
    intros Hin; apply list_elem_of_singleton in Hin; discriminate.
Qed.

End SchedulerClaims.


Lemma addEvent_failure_leaves_store_witness :
  let s := mk_system [] true (mk_sqlite [] 0 [Some (StepFails "disk I/O error"%string)]) in
  events (addEvent s "Meeting" "2099-01-01 09:00" NONE).1.1 = [].
Proof.
  pose proof (addEvent_failure_leaves_store
                (mk_system [] true
                   (mk_sqlite [] 0 [Some (StepFails "disk I/O error"%string)]))
                "Meeting" "2099-01-01 09:00" NONE
                (mk_sqlite [] 0 [])
                (DatabaseException "Failed to insert alarm: disk I/O error")
                eq_refl) as Hw.
  cbv zeta. destruct (addEvent _ _ _ _) as [[s' result] effects].
  destruct Hw as (Hev & _). exact Hev.
Defined.


(** ** Bootstrap and the checker loop *)

Lemma calculateNextOccurrence_future event now :
  recurring_kind (recurrence event) -> now < calculateNextOccurrence event now.
Proof.
  intros Hr. pose proof (calculateNextOccurrence_loop event now) as Hloop.
  apply loop_result in Hloop as (k & _ & _ & Hnow & _). by apply Hnow.
Qed.

Lemma recurring_kind_not_none r : recurring_kind r -> r <> NONE.
Proof. intros [-> | [-> | [-> | ->]]]; discriminate. Qed.

Lemma loaded_records_lookup saved clock k i alarm e :
  saved !! i = Some alarm ->
  loaded_record alarm (clock (k + i)%nat) = Some e ->
  e ∈ loaded_records saved clock k.
Proof.
  revert k i. induction saved as [|a rest IH]; intros k [|i] Hi He;
    simplify_eq/=.
  - rewrite Nat.add_0_r in He. rewrite He. by left.
  - replace (k + S i)%nat with (S k + i)%nat in He by lia.
    specialize (IH (S k) i Hi He).
    destruct (loaded_record a (clock k)); [by right|done].
Qed.

Lemma loaded_records_elem saved clock k e :
  e ∈ loaded_records saved clock k ->
  exists i alarm,
    saved !! i = Some alarm /\ loaded_record alarm (clock (k + i)%nat) = Some e.
Proof.
  revert k. induction saved as [|a rest IH]; intros k He; cbn in He.
  - by apply elem_of_nil in He.
  - destruct (loaded_record a (clock k)) as [e0|] eqn:Ea.
    + apply elem_of_cons in He as [->|He].
      * exists 0%nat, a. rewrite Nat.add_0_r. done.
      * destruct (IH _ He) as (i & alarm & Hi & Hl).
        exists (S i), alarm. replace (k + S i)%nat with (S k + i)%nat by lia. done.
    + destruct (IH _ He) as (i & alarm & Hi & Hl).
      exists (S i), alarm. replace (k + S i)%nat with (S k + i)%nat by lia. done.
Qed.

Section BootstrapClaims.
Context {DB : Type} `{Database DB}.
Implicit Types (s : AlarmSystem DB).


End BootstrapClaims.



(** * Further properties *)

(** ** Recurrence names *)

(** X1.  [stringToRecurrenceType] undoes [recurrenceTypeToString] on the
    four recurring kinds and on NONE; every other integer is printed as
    "None" and therefore read back as NONE.  In the other direction the
    four names are read and printed back unchanged, and every other
    string, "None" included, is read as NONE. *)
Theorem recurrence_name_round_trip (t : RecurrenceType) (str : string) :
  stringToRecurrenceType (recurrenceTypeToString t)
    = (if (1 <=? t) && (t <=? 4) then t else NONE) /\
  (stringToRecurrenceType str <> NONE ->
     recurrenceTypeToString (stringToRecurrenceType str) = str) /\
  (stringToRecurrenceType str = NONE ->
     recurrenceTypeToString (stringToRecurrenceType str) = "None"%string).
Proof.
  split; [|split].
  - unfold recurrenceTypeToString.
    destruct (Z.eqb_spec t DAILY) as [->|H1]; [reflexivity|].
    destruct (Z.eqb_spec t WEEKLY) as [->|H2]; [reflexivity|].
    destruct (Z.eqb_spec t MONTHLY) as [->|H3]; [reflexivity|].
    destruct (Z.eqb_spec t YEARLY) as [->|H4]; [reflexivity|].
    unfold DAILY, WEEKLY, MONTHLY, YEARLY in *.
    destruct (Z.leb_spec 1 t); destruct (Z.leb_spec t 4); cbn; try reflexivity.
    lia.
  - unfold stringToRecurrenceType.
    destruct (String.eqb_spec str "Daily") as [->|_]; [reflexivity|].
    destruct (String.eqb_spec str "Weekly") as [->|_]; [reflexivity|].
    destruct (String.eqb_spec str "Monthly") as [->|_]; [reflexivity|].
    destruct (String.eqb_spec str "Yearly") as [->|_]; [reflexivity|].
    intros H. by destruct H.
  - intros ->. reflexivity.
Qed.

(** ** Reading and writing time strings *)

Lemma datetime_text_append y m d H M rest :
  (datetime_text y m d H M ++ rest)%string = datetime_text_then y m d H M rest.
Proof. reflexivity. Qed.

Lemma skip_spaces_all_spaces ws s :
  all_spaces ws = true -> skip_spaces (ws ++ s) = skip_spaces s.
Proof.
  induction ws as [|c ws IH]; [done|].
  cbn [all_spaces String.append skip_spaces].
  intros Hc. apply andb_true_iff in Hc as [Hc Hws]. rewrite Hc. by apply IH.
Qed.

Lemma time_get_conv_end f s t rest t' :
  get_conversion f s t = (rest, t', false) ->
  s <> EmptyString ->
  time_get [Conv f] s t
  = (t', mk_iostate false
           match rest with EmptyString => true | _ => false end).
Proof.
  intros Hc Hs. destruct s as [|c s']; [done|].
  cbn [time_get]. rewrite Hc. destruct rest; reflexivity.
Qed.

Lemma get_time_datetime_text_then y m d H M rest ws t :
  0 <= y <= 9999 -> 1 <= m <= 12 -> 1 <= d <= 31 ->
  0 <= H <= 23 -> 0 <= M <= 59 -> all_spaces ws = true ->
  get_time datetime_format (ws ++ datetime_text_then y m d H M rest) t
  = (set_tm_min M (set_tm_hour H (set_tm_mday d
       (set_tm_mon (m - 1) (set_tm_year (y - 1900) t)))),
     mk_iostate false
       match rest with EmptyString => true | _ => false end).
Proof.
  intros Hy Hm Hd HH HM Hws. unfold get_time, datetime_text_then.
  rewrite skip_spaces_all_spaces by done.
  assert (Hsk : forall n rest, 0 <= n <= 9999 ->
            skip_spaces (four_digits n rest) = four_digits n rest).
  { intros n r Hn. unfold four_digits at 1. cbn [skip_spaces].
    rewrite is_space_digit_char by zdiv. reflexivity. }
  assert (Hsk2 : forall n rest, 0 <= n <= 99 ->
            skip_spaces (String " " (two_digits n rest)) = two_digits n rest).
  { intros n r Hn. unfold two_digits. cbn [skip_spaces].
    change (is_space " ") with true. cbv iota.
    rewrite is_space_digit_char by zdiv. reflexivity. }
  rewrite Hsk by done.
  change (compile_format datetime_format)
    with [Conv "Y"; Lit "-"; Conv "m"; Lit "-"; Conv "d"; Space;
          Conv "H"; Lit ":"; Conv "M"].
  destruct (four_digits y (String "-" (two_digits m (String "-" (two_digits d
    (String " " (two_digits H (String ":" (two_digits M rest))))))))) as [|c0 s0] eqn:E0;
    [discriminate|]. rewrite <- E0. clear E0 c0 s0.
  rewrite (time_get_conv _ _ _ _ _ _ (get_conversion_year _ _ _ Hy))
    by discriminate.
  rewrite time_get_lit by reflexivity.
  rewrite (time_get_conv _ _ _ _ _ _ (get_conversion_month _ _ _ Hm))
    by discriminate.
  rewrite time_get_lit by reflexivity.
  rewrite (time_get_conv _ _ _ _ _ _ (get_conversion_day _ _ _ Hd))
    by discriminate.
  rewrite time_get_space, Hsk2 by lia.
  rewrite (time_get_conv _ _ _ _ _ _ (get_conversion_hour _ _ _ HH))
    by discriminate.
  rewrite time_get_lit by reflexivity.
  apply time_get_conv_end; [|discriminate].
  apply get_conversion_minute. done.
Qed.

Lemma civil_in_range (y m d H M : Z) :
  1678 <= y <= 2261 -> 1 <= m <= 12 -> 1 <= d <= 31 ->
  0 <= H <= 23 -> 0 <= M <= 59 ->
  time_point_min <= civil y m d H M <= time_point_max.
Proof.
  intros Hy Hm Hd HH HM. unfold civil, from_time_t, mktime.
  cbn [tm_sec tm_min tm_hour tm_mday tm_mon tm_year].
  rewrite (Z.div_small (m - 1) 12), (Z.mod_small (m - 1) 12) by lia.
  replace (1900 + (y - 1900) + 0) with y by lia.
  pose proof (days_before_year_le 1678 y ltac:(lia)) as Hlo.
  pose proof (days_before_year_le y 2261 ltac:(lia)) as Hhi.
  let v := eval vm_compute in (days_before_year 1678) in
  change (days_before_year 1678) with v in Hlo.
  let v := eval vm_compute in (days_before_year 2261) in
  change (days_before_year 2261) with v in Hhi.
  assert (Hmon : forall (leap : bool) (k : Z),
             0 <= k <= 11 -> 0 <= days_before_month leap k <= 335).
  { intros leap k Hk. month_split Hk; destruct leap; vm_compute;
      split; discriminate. }
  specialize (Hmon (is_leap y) (m - 1) ltac:(lia)).
  unfold ticks_per_second, time_point_min, time_point_max. lia.
Qed.

(** X2.  In a process running in UTC: a string that holds, after any
    leading white space, a year from 1678 to 2261 in four digits and a
    month, day, hour and minute of two digits each in the layout
    "YYYY-MM-DD HH:MM" is read without [failbit], whatever characters
    follow it, and [parseDateTime] returns the time [mktime] gives for
    those fields with zero seconds, a time inside the 64-bit range.  The
    day need only be at most 31: a day past the end of the month is
    accepted and rolls over. *)
Theorem parseDateTime_well_formed (y m d H M : Z) (ws rest : string) :
  1678 <= y <= 2261 -> 1 <= m <= 12 -> 1 <= d <= 31 ->
  0 <= H <= 23 -> 0 <= M <= 59 -> all_spaces ws = true ->
  let input := (ws ++ datetime_text y m d H M ++ rest)%string in
  failbit (get_time datetime_format input tm_zero).2 = false /\
  parseDateTime input = civil y m d H M /\
  time_point_min <= civil y m d H M <= time_point_max.
Proof.
  intros Hy Hm Hd HH HM Hws. cbv zeta. rewrite datetime_text_append.
  unfold parseDateTime.
  rewrite get_time_datetime_text_then by (done || lia).
  split; [reflexivity|]. split; [reflexivity|].
  by apply civil_in_range.
Qed.

Lemma parseDateTime_well_formed_witness :
  parseDateTime "  2024-02-30 09:05 (snoozed)" = civil 2024 3 1 9 5.
Proof.
  destruct (parseDateTime_well_formed 2024 2 30 9 5 "  " " (snoozed)")
    as (_ & Hp & _); try lia; [reflexivity|].
  etransitivity; [exact Hp|]. vm_compute. reflexivity.
Defined.

(** X3.  Writing back what was read, in a process running in UTC: for a
    calendar date that exists, with a year from 1678 to 2261,
    [parseDateTime] gives a time inside the 64-bit range and
    [formatDateTime (parseDateTime text)] is the text itself. *)
Theorem format_parse_round_trip (y m d H M : Z) :
  1678 <= y <= 2261 -> 1 <= m <= 12 ->
  1 <= d <= days_in_month (is_leap y) (m - 1) ->
  0 <= H <= 23 -> 0 <= M <= 59 ->
  time_point_min <= parseDateTime (datetime_text y m d H M) <= time_point_max /\
  formatDateTime (parseDateTime (datetime_text y m d H M))
  = datetime_text y m d H M.
Proof.
  intros Hy Hm Hd HH HM.
  pose proof (days_in_month_bounds (is_leap y) (m - 1) ltac:(lia)) as Hdim.
  unfold parseDateTime.
  rewrite get_time_datetime_text by lia.
  unfold set_tm_min, set_tm_hour, set_tm_mday, set_tm_mon, set_tm_year, tm_zero.
  cbn [tm_sec tm_min tm_hour tm_mday tm_mon tm_year].
  split; [apply (civil_in_range y m d H M); lia|].
  unfold formatDateTime. rewrite to_time_t_from_time_t.
  rewrite localtime_mktime.
  - rewrite strftime_datetime; cbn [tm_sec tm_min tm_hour tm_mday tm_mon tm_year];
      try lia.
    f_equal; lia.
  - unfold tm_valid. cbn [tm_sec tm_min tm_hour tm_mday tm_mon tm_year].
    replace (1900 + (y - 1900)) with y by lia. lia.
Qed.

Lemma format_parse_round_trip_witness :
  formatDateTime (parseDateTime "2024-02-29 23:59") = "2024-02-29 23:59"%string.
Proof.
  apply (format_parse_round_trip 2024 2 29 23 59); try lia.
  vm_compute. split; discriminate.
Defined.

(** ** More on the recurrence calculator *)

Lemma recurring_kind_dec r : recurring_kind r \/ ~ recurring_kind r.
Proof.
  unfold recurring_kind.
  destruct (Z.eq_dec r DAILY); [tauto|]. destruct (Z.eq_dec r WEEKLY); [tauto|].
  destruct (Z.eq_dec r MONTHLY); [tauto|]. destruct (Z.eq_dec r YEARLY); tauto.
Qed.

Lemma advance_none r time : ~ recurring_kind r -> advance r time = None.
Proof.
  intros Hr. unfold advance.
  destruct (Z.eqb_spec r DAILY); [exfalso; apply Hr; left; done|].
  destruct (Z.eqb_spec r WEEKLY); [exfalso; apply Hr; right; left; done|].
  destruct (Z.eqb_spec r MONTHLY); [exfalso; apply Hr; right; right; left; done|].
  destruct (Z.eqb_spec r YEARLY); [exfalso; apply Hr; right; right; right; done|].
  done.
Qed.

Lemma calculateNextOccurrence_unchanged event now :
  now < datetime event \/ ~ recurring_kind (recurrence event) ->
  calculateNextOccurrence event now = datetime event.
Proof.
  intros Hcase. unfold calculateNextOccurrence, next_occurrence_budget.
  cbn [next_occurrence_loop].
  destruct (Z.leb_spec (datetime event) now) as [Hle|Hgt]; [|done].
  destruct Hcase as [Hlt|Hr]; [lia|].
  by rewrite advance_none.
Qed.

Lemma step_increases r time : recurring_kind r -> time < step r time.
Proof.
  intros Hr. pose proof (advance_gt r time _ (step_recurring r time Hr)).
  pose proof hours_24_pos. lia.
Qed.

Lemma iter_step_mono r time (j k : nat) :
  recurring_kind r -> (j <= k)%nat ->
  Nat.iter j (step r) time <= Nat.iter k (step r) time.
Proof.
  intros Hr Hjk. induction Hjk as [|k Hjk IH]; [lia|].
  rewrite Nat.iter_succ.
  pose proof (step_increases r (Nat.iter k (step r) time) Hr). lia.
Qed.

(** X4.  [calculateNextOccurrence] returns the due time unchanged exactly
    when there is nothing to advance: the event is not of a recurring kind,
    or it is already due after [now].  Its result is stable: computing the
    next occurrence again from the result, at the same [now], gives the
    result back. *)
Theorem calculateNextOccurrence_stable (event : AlarmEvent) (now : time_point) :
  (calculateNextOccurrence event now = datetime event <->
     now < datetime event \/ ~ recurring_kind (recurrence event)) /\
  calculateNextOccurrence
    (set_datetime (calculateNextOccurrence event now) event) now
  = calculateNextOccurrence event now.
Proof.
  split.
  - split; [|apply calculateNextOccurrence_unchanged].
    intros Heq.
    destruct (recurring_kind_dec (recurrence event)) as [Hr|Hr]; [|by right].
    left. rewrite <- Heq. by apply calculateNextOccurrence_future.
  - apply calculateNextOccurrence_unchanged. cbn [datetime recurrence set_datetime].
    destruct (recurring_kind_dec (recurrence event)) as [Hr|Hr]; [|by right].
    left. by apply calculateNextOccurrence_future.
Qed.

(** X5.  A later clock reading never gives an earlier occurrence: the
    result of [calculateNextOccurrence] is monotone in [now]. *)
Theorem calculateNextOccurrence_monotone (event : AlarmEvent)
    (now1 now2 : time_point) :
  now1 <= now2 ->
  calculateNextOccurrence event now1 <= calculateNextOccurrence event now2.
Proof.
  intros Hnow.
  destruct (recurring_kind_dec (recurrence event)) as [Hr|Hr].
  - pose proof (calculateNextOccurrence_loop event now1) as H1.
    pose proof (calculateNextOccurrence_loop event now2) as H2.
    apply loop_result in H1 as (k1 & Hk1 & Hj1 & _ & _).
    apply loop_result in H2 as (k2 & Hk2 & _ & Hfut2 & _).
    specialize (Hfut2 Hr). rewrite Hk1. rewrite Hk2 in Hfut2 |- *.
    destruct (Nat.le_gt_cases k1 k2) as [Hle|Hgt].
    + by apply iter_step_mono.
    + specialize (Hj1 k2 Hgt). lia.
  - rewrite !calculateNextOccurrence_unchanged by (by right). lia.
Qed.

Lemma calculateNextOccurrence_monotone_witness :
  calculateNextOccurrence (mk_event 1 "Rent" (civil 2024 1 31 8 0) MONTHLY)
    (civil 2024 2 1 0 0)
  <= calculateNextOccurrence (mk_event 1 "Rent" (civil 2024 1 31 8 0) MONTHLY)
       (civil 2024 6 1 0 0).
Proof.
  apply calculateNextOccurrence_monotone. vm_compute. discriminate.
Defined.

(** X6.  In a process running in UTC, a DAILY or WEEKLY event that is
    due at or after the epoch, read at a [now] at least [longest_step]
    (367 days) below the largest time point, keeps its time of day: the
    next occurrence has the hour, minute and second of the due time, and
    the same fraction of a second.  The next occurrence is inside the
    64-bit range and is what the loop returns in 64-bit arithmetic. *)
Theorem fixed_period_keeps_time_of_day (event : AlarmEvent) (now : time_point) :
  recurrence event = DAILY \/ recurrence event = WEEKLY ->
  0 <= datetime event <= time_point_max ->
  now <= time_point_max - longest_step ->
  let next := calculateNextOccurrence event now in
  tm_hour (fields_of next) = tm_hour (fields_of (datetime event)) /\
  tm_min (fields_of next) = tm_min (fields_of (datetime event)) /\
  tm_sec (fields_of next) = tm_sec (fields_of (datetime event)) /\
  next mod ticks_per_second = datetime event mod ticks_per_second /\
  datetime event <= next <= time_point_max /\
  exists fuel : nat,
    next_occurrence_loop64 fuel (recurrence event) now (datetime event)
    = Some next.
Proof.
  intros Hr [Hpos Hdue] Hnow. cbv zeta.
  pose proof (calculateNextOccurrence_loop event now) as Hloop.
  assert (Hrange : datetime event <= calculateNextOccurrence event now
                   <= time_point_max).
  { destruct (Z.le_gt_cases (datetime event) now) as [Hle|Hgt].
    - pose proof (loop_result_le _ _ _ _ _ Hloop Hle) as Hres.
      apply loop_result in Hloop as (k & Hk & _). rewrite Hk in *.
      pose proof (iter_step_ge (recurrence event) k (datetime event)). lia.
    - rewrite calculateNextOccurrence_unchanged by (left; lia). lia. }
  assert (H64 : exists fuel : nat,
             next_occurrence_loop64 fuel (recurrence event) now (datetime event)
             = Some (calculateNextOccurrence event now)).
  { eexists. rewrite loop64_agrees; [exact Hloop| |done].
    unfold time_point_min. lia. }
  apply loop_result in Hloop as (k & Hk & _).
  assert (exists n : Z, 0 <= n /\
            calculateNextOccurrence event now
            = datetime event + n * (86400 * ticks_per_second)) as (n & Hn & Heq).
  { rewrite Hk. destruct Hr as [-> | ->].
    - rewrite (iter_fixed_period DAILY (hours 24)) by apply step_daily.
      exists (Z.of_nat k). split; [lia|]. unfold hours. lia.
    - rewrite (iter_fixed_period WEEKLY (hours (24 * 7))) by apply step_weekly.
      exists (7 * Z.of_nat k). split; [lia|]. unfold hours. lia. }
  rewrite Heq in *. clear Heq Hk.
  set (t := datetime event) in *.
  assert (Hq : to_time_t (t + n * (86400 * ticks_per_second))
               = to_time_t t + n * 86400).
  { unfold to_time_t, ticks_per_second.
    rewrite !Z.quot_div_nonneg by lia.
    replace (t + n * (86400 * 1000000000)) with (t + (n * 86400) * 1000000000)
      by lia.
    apply Z.div_add. lia. }
  unfold fields_of. rewrite Hq. unfold localtime.
  cbn [tm_hour tm_min tm_sec].
  assert (Hm : (to_time_t t + n * 86400) mod 86400 = to_time_t t mod 86400)
    by apply Z_mod_plus_full.
  rewrite Hm. repeat split; try done; try lia.
  unfold ticks_per_second.
  replace (t + n * (86400 * 1000000000)) with (t + (n * 86400) * 1000000000)
    by lia.
  apply Z_mod_plus_full.
Qed.

Lemma fixed_period_keeps_time_of_day_witness :
  tm_hour (fields_of (calculateNextOccurrence
                        (mk_event 1 "Standup" (civil 2024 1 1 9 30) WEEKLY)
                        (civil 2024 3 15 0 0))) = 9.
Proof.
  destruct (fixed_period_keeps_time_of_day
              (mk_event 1 "Standup" (civil 2024 1 1 9 30) WEEKLY)
              (civil 2024 3 15 0 0)) as [Hh _].
  - right. reflexivity.
  - vm_compute. split; discriminate.
  - vm_compute. discriminate.
  - rewrite Hh. vm_compute. reflexivity.
Defined.

(** ** More on the scheduler *)

Lemma getEvents_listing ev :
  events_heap ev ->
  getEvents_loop (length ev) ev [] ≡ₚ map display ev.
Proof.
  intros Hheap.
  destruct (getEvents_loop_spec (length ev) ev [] Hheap (Nat.le_refl _))
    as (es & Hperm & _ & ->).
  cbn [app]. by rewrite Hperm.
Qed.

Lemma loaded_records_length saved clock k :
  (length (loaded_records saved clock k) <= length saved)%nat.
Proof.
  revert k. induction saved as [|a rest IH]; intros k; cbn; [lia|].
  destruct (loaded_record a (clock k)); cbn; specialize (IH (S k)); lia.
Qed.

Section SchedulerExtras.
Context {DB : Type} `{Database DB}.
Implicit Types (s : AlarmSystem DB).


(** X8.  When the database cannot return the saved alarms, [loadAlarms]
    queues nothing: a [DatabaseException] comes out as the
    [AlarmSystemException] "Failed to load alarms: ..." and any other
    exception as itself, with the queue as it was. *)
Theorem loadAlarms_failure_leaves_store s (clock : nat -> time_point)
    (db' : DB) (e : exn) :
  db_loadAlarms (db s) = (db', Thrown e) ->
  let '(s', result, effects) := loadAlarms s clock in
  events s' = events s /\ running s' = running s /\
  result = Thrown (match e with
                   | DatabaseException what =>
                       AlarmSystemException ("Failed to load alarms: " ++ what)
                   | _ => e
                   end).
Proof.
  intros Hdb. unfold loadAlarms. rewrite Hdb.
  destruct e as [what|what|what]; cbn; repeat split.
Qed.


(** X10.  A pass of the checker acts on the earliest event only, and
    only when it is due.  Every line it prints is the alarm of a queued
    event that is due at [now] and that no queued event precedes; when it
    waits for a deadline, that deadline is the earliest due time in the
    queue, it is still ahead of [now], and nothing has changed; it waits
    without a deadline only when the queue is empty. *)
Theorem checkAlarms_pass_earliest_first s (now now' : time_point) :
  events_heap (events s) ->
  let '(s', effects, _) := checkAlarms_pass s now now' in
  (forall line : string, Stdout line ∈ effects ->
     exists e : AlarmEvent,
       e ∈ events s /\ line = alarm_line e /\ datetime e <= now /\
       forall e' : AlarmEvent, e' ∈ events s -> datetime e <= datetime e') /\
  (forall deadline : time_point, WaitUntil deadline ∈ effects ->
     s' = s /\ now < deadline /\
     (exists e : AlarmEvent, e ∈ events s /\ datetime e = deadline) /\
     forall e' : AlarmEvent, e' ∈ events s -> deadline <= datetime e') /\
  (Wait ∈ effects -> events s = [] /\ s' = s).
Proof.
  intros Hheap. unfold checkAlarms_pass.
  destruct (events s) as [|front rest] eqn:Eev.
  - split; [|split].
    + intros line Hin. apply list_elem_of_singleton in Hin. discriminate.
    + intros deadline Hin. apply list_elem_of_singleton in Hin. discriminate.
    + done.
  - pose proof (events_front_least _ _ _ eq_refl Hheap) as Hleast.
    destruct (Z.leb_spec (datetime front) now) as [Hdue|Hahead].
    + assert (Hfront : forall line effects',
                Stdout line ∈ Stdout ("ALARM: " ++ description front) :: effects' ->
                (forall l, Stdout l ∉ effects') ->
                exists e, e ∈ front :: rest /\ line = alarm_line e /\
                  datetime e <= now /\
                  forall e', e' ∈ front :: rest -> datetime e <= datetime e').
      { intros line effects' Hin Hno. apply elem_of_cons in Hin as [Heq|Hin].
        - injection Heq as ->. exists front. repeat split; [by left|done|done].
        - by apply Hno in Hin. }
      destruct (negb (recurrence front =? NONE)).
      * destruct (db_updateAlarmDateTime _ _ _) as [db' [u|[what|what|what]]];
          (split; [|split];
           [intros line Hin; apply (Hfront _ _ Hin); intros l Hl;
            repeat (apply elem_of_cons in Hl as [Hl|Hl]; [discriminate|]);
            by apply elem_of_nil in Hl
           |intros deadline Hin;
            repeat (apply elem_of_cons in Hin as [Hin|Hin]; [discriminate|]);
            by apply elem_of_nil in Hin
           |intros Hin;
            repeat (apply elem_of_cons in Hin as [Hin|Hin]; [discriminate|]);
            by apply elem_of_nil in Hin]).
      * split; [|split].
        -- intros line Hin. apply (Hfront _ _ Hin). intros l Hl.
           by apply elem_of_nil in Hl.
        -- intros deadline Hin. apply list_elem_of_singleton in Hin. discriminate.
        -- intros Hin. apply list_elem_of_singleton in Hin. discriminate.
    + split; [|split].
      * intros line Hin. apply list_elem_of_singleton in Hin. discriminate.
      * intros deadline Hin. apply list_elem_of_singleton in Hin.
        injection Hin as ->. split; [done|]. split; [lia|].
        split; [exists front; split; [by left|done]|done].
      * intros Hin. apply list_elem_of_singleton in Hin. discriminate.
Qed.

(** X11.  Firing a one-shot event removes it for good: the pass prints
    its alarm, the queue is the old queue without that event, and the
    database is neither called nor changed. *)
Theorem checkAlarms_pass_one_shot s (now now' : time_point)
    (e : AlarmEvent) (rest : list AlarmEvent) :
  events_heap (events s) ->
  events s = e :: rest ->
  datetime e <= now ->
  recurrence e = NONE ->
  let '(s', effects, exception) := checkAlarms_pass s now now' in
  effects = [Stdout (alarm_line e)] /\ exception = None /\
  events s ≡ₚ e :: events s' /\ events_heap (events s') /\
  length (events s') = length rest /\
  db s' = db s /\ running s' = running s.
Proof.
  intros Hheap Hev Hdue Hrec. unfold checkAlarms_pass. rewrite Hev.
  destruct (Z.leb_spec (datetime e) now); [|lia].
  rewrite Hrec. cbn [Z.eqb NONE negb]. rewrite <- Hev.
  destruct (events_pop_spec _ _ _ Hev Hheap) as (Hh & Hp & Hl).
  cbn. repeat split; done.
Qed.

(** X12.  A due event whose recurrence is neither NONE nor one of the
    four recurring kinds is never retired: when the update of the database
    returns, the pass puts it back with the due time it had, so the queue
    after the pass holds the same events as before and the event is due
    again at once. *)
Theorem checkAlarms_pass_unknown_recurrence s (now now' : time_point)
    (e : AlarmEvent) (rest : list AlarmEvent) (db' : DB) (u : unit) :
  events_heap (events s) ->
  events s = e :: rest ->
  datetime e <= now ->
  recurrence e <> NONE ->
  ~ recurring_kind (recurrence e) ->
  db_updateAlarmDateTime (db s) (id e) (formatDateTime (datetime e))
    = (db', Returned u) ->
  let '(s', effects, exception) := checkAlarms_pass s now now' in
  effects = [Stdout (alarm_line e);
             CallUpdateAlarmDateTime (id e) (formatDateTime (datetime e))] /\
  exception = None /\
  events s' ≡ₚ events s /\ e ∈ events s' /\ events_heap (events s').
Proof.
  intros Hheap Hev Hdue Hrec Hkind Hdb.
  pose proof (checkAlarms_pass_heap s now now' Hheap) as Hheap'.
  revert Hheap'. unfold checkAlarms_pass. rewrite Hev.
  destruct (Z.leb_spec (datetime e) now); [|lia].
  destruct (Z.eqb_spec (recurrence e) NONE); [done|]. cbn [negb].
  rewrite calculateNextOccurrence_unchanged by (by right).
  assert (set_datetime (datetime e) e = e) as -> by (by destruct e).
  rewrite Hdb. cbv beta iota. cbn [events fst]. intros Hheap'.
  destruct (events_pop_spec (e :: rest) e rest eq_refl) as (_ & Hp & _).
  { by rewrite <- Hev. }
  assert (Hperm : events_push (events_pop (e :: rest)) e ≡ₚ e :: rest).
  { unfold events_push. rewrite pq_push_perm. by rewrite <- Hp. }
  repeat split; try done.
  rewrite Hperm. by left.
Qed.
End SchedulerExtras.

(** ** The checker loop over several passes *)

Lemma filter_none_due (now : time_point) (ev : list AlarmEvent) :
  Forall (fun e => now < datetime e) ev ->
  filter (fun e => datetime e <= now) ev = [] /\
  filter (fun e => now < datetime e) ev = ev.
Proof.
  induction 1 as [|e ev He _ [IH1 IH2]]; [done|].
  rewrite filter_cons_False by lia. rewrite filter_cons_True by done.
  split; [done|]. by rewrite IH2.
Qed.

Section CheckerLoop.
Context {DB : Type} `{Database DB}.
Implicit Types (s : AlarmSystem DB).

Lemma checkAlarms_idle s (now : time_point) (passes : nat) :
  events_heap (events s) ->
  Forall (fun e => now < datetime e) (events s) ->
  exists effects,
    checkAlarms passes s (fun _ => (now, now)) = (s, effects, None) /\
    stdout_lines effects = [].
Proof.
  intros Hheap Hahead. induction passes as [|passes (effects & IH & Hout)].
  - exists []. done.
  - cbn [checkAlarms]. destruct (running s); [|by exists []].
    assert (exists eff, checkAlarms_pass s now now = (s, [eff], None) /\
              stdout_lines [eff] = []) as (eff & -> & Heff).
    { unfold checkAlarms_pass. destruct (events s) as [|front rest] eqn:Eev.
      - by exists Wait.
      - apply Forall_cons in Hahead as [Hfront _].
        destruct (Z.leb_spec (datetime front) now); [lia|].
        by exists (WaitUntil (datetime front)). }
    rewrite IH. exists ([eff] ++ effects). split; [done|].
    cbn [app]. destruct eff; done.
Qed.

(** X13.  With the clock standing at [now] and only one-shot events
    queued, running the checker for at least as many passes as there are
    events fires every event that is due, each once and in order of due
    time, and leaves exactly the events that are not yet due; no exception
    leaves the loop and the database is not touched. *)
Theorem checkAlarms_fires_due_one_shots s (now : time_point) (passes : nat) :
  events_heap (events s) ->
  running s = true ->
  Forall (fun e => recurrence e = NONE) (events s) ->
  (length (events s) <= passes)%nat ->
  let '(s', effects, exception) := checkAlarms passes s (fun _ => (now, now)) in
  exception = None /\ db s' = db s /\
  events s' ≡ₚ filter (fun e => now < datetime e) (events s) /\
  exists fired : list AlarmEvent,
    fired ≡ₚ filter (fun e => datetime e <= now) (events s) /\
    StronglySorted by_due_time fired /\
    stdout_lines effects = map alarm_line fired.
Proof.
  revert s. induction passes as [|passes IH]; intros s Hheap Hrun Hone Hlen.
  - assert (Eev : events s = []) by (destruct (events s); [done|cbn in Hlen; lia]).
    cbn. rewrite Eev. repeat split; try done.
    exists []. repeat split; [done|constructor].
  - assert (events s = [] \/ exists front rest, events s = front :: rest)
      as [Eev|(front & rest & Eev)] by (destruct (events s); eauto).
    { destruct (checkAlarms_idle s now (S passes)) as (effects & -> & Hout).
      - done.
      - rewrite Eev. constructor.
      - rewrite Eev. repeat split; try done.
        exists []. rewrite Hout. repeat split; [done|constructor]. }
    pose proof (events_front_least _ _ _ Eev Hheap) as Hleast.
    destruct (Z.le_gt_cases (datetime front) now) as [Hdue|Hahead].
    + (* the front is due: it fires and the loop goes on without it *)
      assert (Hfront : recurrence front = NONE).
      { rewrite Eev in Hone. by apply Forall_cons in Hone as [? _]. }
      destruct (events_pop_spec _ _ _ Eev Hheap) as (Hh & Hp & Hl).
      assert (Hpass : checkAlarms_pass s now now
                      = (set_events (events_pop (events s)) s,
                         [Stdout (alarm_line front)], None)).
      { unfold checkAlarms_pass. rewrite Eev.
        destruct (Z.leb_spec (datetime front) now); [|lia].
        rewrite Hfront. reflexivity. }
      cbn [checkAlarms]. rewrite Hrun, Hpass.
      specialize (IH (set_events (events_pop (events s)) s)).
      cbn [events set_events running db] in IH.
      destruct (checkAlarms passes (set_events (events_pop (events s)) s)
                  (fun _ => (now, now))) as [[s' effects] exception].
      set (popped := events_pop (events s)) in *. clearbody popped.
      destruct IH as (Hex & Hdb & Hev & fired & Hfired & Hsorted & Hout);
        [done|done| |rewrite Eev in Hlen; cbn in Hlen; lia|].
      { rewrite Hp in Hone. by apply Forall_cons in Hone as [_ ?]. }
      split; [done|]. split; [done|]. split.
      * rewrite Hev, Hp. by rewrite filter_cons_False by lia.
      * exists (front :: fired). split; [|split].
        -- rewrite Hp, filter_cons_True by done. by rewrite Hfired.
        -- constructor; [done|]. apply Forall_forall. intros e He.
           apply Hleast. rewrite Hp. right.
           rewrite Hfired in He. by apply list_elem_of_filter in He as [_ ?].
        -- cbn [app stdout_lines map]. by rewrite Hout.
    + (* nothing is due *)
      assert (Hall : Forall (fun e => now < datetime e) (events s)).
      { apply Forall_forall. intros e He. specialize (Hleast e He). lia. }
      destruct (checkAlarms_idle s now (S passes) Hheap Hall)
        as (effects & -> & Hout).
      destruct (filter_none_due now (events s) Hall) as [Hnone Hkeep].
      rewrite Hnone, Hkeep. repeat split; try done.
      exists []. rewrite Hout. repeat split; [done|constructor].
Qed.
End CheckerLoop.

(** ** The SQLite-backed database *)

Lemma to_int_small z : -2147483648 <= z < 2147483648 -> to_int z = z.
Proof. intros Hz. unfold to_int. zdiv. Qed.

Lemma c_str_idem (s : string) : c_str (c_str s) = c_str s.
Proof.
  induction s as [|c s IH]; [done|]. cbn [c_str].
  destruct (Ascii.eqb c "000") eqn:Ec; [done|].
  cbn [c_str]. by rewrite Ec, IH.
Qed.



(** X15.  Row ids are never reused: in a table whose ids are all at
    most the last id handed out, a successful [addAlarm] appends one row
    whose id is above the id of every row already stored, returns that id
    (converted to [int]), and keeps the table in that shape.  The row
    holds the description and the time string up to their first zero
    byte. *)
Theorem sqlite_addAlarm_fresh_id (d d' : Sqlite) (description datetime : string)
    (recurrence : RecurrenceType) (id : Z) :
  table_ok d ->
  sqlite_addAlarm d description datetime recurrence = (d', Returned id) ->
  table_ok d' /\
  (forall row : Row, row ∈ rows d -> row_id row < last_rowid d') /\
  rows d' = (rows d ++ [mk_row (last_rowid d') (c_str description)
                          (c_str datetime) recurrence])%list /\
  id = to_int (last_rowid d').
Proof.
  unfold table_ok. intros Hok. unfold sqlite_addAlarm, next_fault.
  destruct (faults d) as [|[[m|m]|] fs]; cbn [faults rows last_rowid];
    intros [= <- <-]; cbn [rows last_rowid].
  all: (split; [|split; [|done]]).
  all: try (apply Forall_app; split;
            [eapply Forall_impl; [exact Hok|cbn; intros; lia]
            |constructor; [cbn; lia|constructor]]).
  all: intros row Hrow; rewrite Forall_forall in Hok; specialize (Hok row Hrow);
    lia.
Qed.

Lemma sqlite_addAlarm_fresh_id_witness :
  let d := mk_sqlite [mk_row 1 "Old" "2020-01-01 00:00" NONE;
                      mk_row 4 "Rent" "2024-02-01 08:00" MONTHLY] 4 [] in
  table_ok d /\
  forall row : Row, row ∈ rows d -> row_id row < 5.
Proof.
  cbv zeta.
  assert (Hok : table_ok (mk_sqlite [mk_row 1 "Old" "2020-01-01 00:00" NONE;
                   mk_row 4 "Rent" "2024-02-01 08:00" MONTHLY] 4 [])).
  { unfold table_ok. cbn. repeat constructor; cbn; lia. }
  split; [exact Hok|].
  destruct (sqlite_addAlarm_fresh_id
              (mk_sqlite [mk_row 1 "Old" "2020-01-01 00:00" NONE;
                          mk_row 4 "Rent" "2024-02-01 08:00" MONTHLY] 4 [])
              (mk_sqlite [mk_row 1 "Old" "2020-01-01 00:00" NONE;
                          mk_row 4 "Rent" "2024-02-01 08:00" MONTHLY;
                          mk_row 5 "New" "2030-01-01 00:00" NONE] 5 [])
              "New" "2030-01-01 00:00" NONE 5 Hok eq_refl) as (_ & Hfresh & _).
  exact Hfresh.
Defined.

(** X16.  [updateAlarmDateTime] rewrites the stored time of the rows with
    the given id and nothing else: ids, descriptions, recurrences and the
    order of the rows stay, and every other row keeps its time.  The time
    stored is the new string up to its first zero byte.  An id that no
    row carries is no error: the call returns and the table is unchanged.
    When the call throws, the table is unchanged too. *)
Theorem sqlite_update_changes_only_that_id (d : Sqlite) (id : Z)
    (new_datetime : string) :
  let '(d', result) := sqlite_updateAlarmDateTime d id new_datetime in
  last_rowid d' = last_rowid d /\
  (forall e : exn, result = Thrown e -> rows d' = rows d) /\
  (forall u : unit, result = Returned u ->
     Forall2 (fun row row' =>
                row_id row' = row_id row /\
                row_description row' = row_description row /\
                row_recurrence row' = row_recurrence row /\
                row_datetime row'
                  = if row_id row =? id then c_str new_datetime
                    else row_datetime row)
       (rows d) (rows d') /\
     ((forall row : Row, row ∈ rows d -> row_id row <> id) -> rows d' = rows d)).
Proof.
  unfold sqlite_updateAlarmDateTime, next_fault.
  destruct (faults d) as [|[[m|m]|] fs]; cbn [faults rows last_rowid];
    (split; [done|]); (split; [intros e He; try done|]);
    try (intros u Hu; discriminate).
  all: intros u _; split.
  all: try (induction (rows d) as [|row l IH]; cbn [map]; constructor; [|done];
            destruct (Z.eqb_spec (row_id row) id); done).
  all: intros Hmiss; induction (rows d) as [|row l IH]; [done|]; cbn [map];
    (destruct (Z.eqb_spec (row_id row) id) as [Heq|_];
     [exfalso; apply (Hmiss row); [by left|done]|]);
    f_equal; apply IH; intros r Hr; apply Hmiss; by right.
Qed.

(** ** The scheduler over the SQLite-backed database *)


(** ** Instances of the properties above *)


Lemma loadAlarms_failure_leaves_store_witness :
  let s := mk_system [] true
             (mk_sqlite [] 0 [Some (PrepareFails "no such table: alarms"%string)]) in
  (loadAlarms s (fun _ => 0)).1.2
  = Thrown (AlarmSystemException
              "Failed to load alarms: Failed to prepare statement: no such table: alarms").
Proof.
  pose proof (loadAlarms_failure_leaves_store
                (mk_system [] true
                   (mk_sqlite [] 0
                      [Some (PrepareFails "no such table: alarms"%string)]))
                (fun _ => 0) (mk_sqlite [] 0 [])
                (DatabaseException "Failed to prepare statement: no such table: alarms")
                eq_refl) as Hw.
  cbv zeta. destruct (loadAlarms _ _) as [[s' result] effects].
  destruct Hw as (_ & _ & Hres). exact Hres.
Defined.


Lemma checkAlarms_pass_earliest_first_witness :
  let early := mk_event 1 "Early" (civil 2024 1 1 9 0) NONE in
  let late := mk_event 2 "Late" (civil 2024 1 1 10 0) NONE in
  let s := mk_system [early; late] true (mk_sqlite [] 2 []) in
  let now := civil 2024 1 1 8 0 in
  (checkAlarms_pass s now now).1.1 = s /\
  forall e' : AlarmEvent, e' ∈ events s -> civil 2024 1 1 9 0 <= datetime e'.
Proof.
  cbv zeta.
  assert (Hheap : events_heap [mk_event 1 "Early" (civil 2024 1 1 9 0) NONE;
                               mk_event 2 "Late" (civil 2024 1 1 10 0) NONE]).
  { intros i d Hi. cbn in Hi. destruct i as [|[|i]]; [lia| |lia].
    vm_compute. discriminate. }
  pose proof (checkAlarms_pass_earliest_first
                (mk_system [mk_event 1 "Early" (civil 2024 1 1 9 0) NONE;
                            mk_event 2 "Late" (civil 2024 1 1 10 0) NONE] true
                   (mk_sqlite [] 2 []))
                (civil 2024 1 1 8 0) (civil 2024 1 1 8 0) Hheap) as Hw.
  assert (Hpass : (checkAlarms_pass
                     (mk_system [mk_event 1 "Early" (civil 2024 1 1 9 0) NONE;
                                 mk_event 2 "Late" (civil 2024 1 1 10 0) NONE] true
                        (mk_sqlite [] 2 []))
                     (civil 2024 1 1 8 0) (civil 2024 1 1 8 0)).1.2
                  = [WaitUntil (civil 2024 1 1 9 0)])
    by (vm_compute; reflexivity).
  destruct (checkAlarms_pass _ _ _) as [[s' effects] exception].
  cbn [fst snd] in *. destruct Hw as (_ & Hwait & _).
  destruct (Hwait (civil 2024 1 1 9 0)) as (Hs & _ & _ & Hleast).
  - rewrite Hpass. by left.
  - split; [exact Hs|exact Hleast].
Defined.

Lemma checkAlarms_pass_one_shot_witness :
  let dentist := mk_event 2 "Dentist" (civil 2020 5 5 8 30) NONE in
  let s := mk_system [dentist] true
             (mk_sqlite [mk_row 2 "Dentist" "2020-05-05 08:30" NONE] 2 []) in
  let '(s', effects, _) :=
    checkAlarms_pass s (civil 2024 3 15 0 0) (civil 2024 3 15 0 0) in
  effects = [Stdout "ALARM: Dentist"] /\ events s' = [] /\ db s' = db s.
Proof.
  cbv zeta.
  assert (Hheap : events_heap [mk_event 2 "Dentist" (civil 2020 5 5 8 30) NONE])
    by (intros i d Hi; cbn in Hi; lia).
  assert (Hdue : civil 2020 5 5 8 30 <= civil 2024 3 15 0 0)
    by (vm_compute; discriminate).
  pose proof (checkAlarms_pass_one_shot
                (mk_system [mk_event 2 "Dentist" (civil 2020 5 5 8 30) NONE] true
                   (mk_sqlite [mk_row 2 "Dentist" "2020-05-05 08:30" NONE] 2 []))
                (civil 2024 3 15 0 0) (civil 2024 3 15 0 0)
                (mk_event 2 "Dentist" (civil 2020 5 5 8 30) NONE) []
                Hheap eq_refl Hdue eq_refl) as Hw.
  destruct (checkAlarms_pass _ _ _) as [[s' effects] exception].
  destruct Hw as (Heff & _ & _ & _ & Hlen & Hdb & _).
  split; [exact Heff|]. split; [|exact Hdb].
  destruct (events s'); [reflexivity|discriminate Hlen].
Defined.

Lemma checkAlarms_pass_unknown_recurrence_witness :
  let odd := mk_event 1 "Odd" (civil 2024 1 1 10 0) 7 in
  let s := mk_system [odd] true
             (mk_sqlite [mk_row 1 "Odd" "2024-01-01 10:00" 7] 1 []) in
  let '(s', effects, _) :=
    checkAlarms_pass s (civil 2024 3 15 0 0) (civil 2024 3 15 0 0) in
  effects = [Stdout "ALARM: Odd"; CallUpdateAlarmDateTime 1 "2024-01-01 10:00"] /\
  odd ∈ events s'.
Proof.
  cbv zeta.
  assert (Hheap : events_heap [mk_event 1 "Odd" (civil 2024 1 1 10 0) 7])
    by (intros i d Hi; cbn in Hi; lia).
  assert (Hdue : civil 2024 1 1 10 0 <= civil 2024 3 15 0 0)
    by (vm_compute; discriminate).
  assert (Hkind : ~ recurring_kind 7)
    by (intros [Hk|[Hk|[Hk|Hk]]]; discriminate Hk).
  assert (Hnone : 7 <> NONE) by discriminate.
  pose proof (checkAlarms_pass_unknown_recurrence
                (mk_system [mk_event 1 "Odd" (civil 2024 1 1 10 0) 7] true
                   (mk_sqlite [mk_row 1 "Odd" "2024-01-01 10:00" 7] 1 []))
                (civil 2024 3 15 0 0) (civil 2024 3 15 0 0)
                (mk_event 1 "Odd" (civil 2024 1 1 10 0) 7) []
                (mk_sqlite [mk_row 1 "Odd" "2024-01-01 10:00" 7] 1 []) tt
                Hheap eq_refl Hdue Hnone Hkind) as Hw.
  destruct (checkAlarms_pass _ _ _) as [[s' effects] exception].
  destruct Hw as (Heff & _ & _ & Hin & _).
  - vm_compute. reflexivity.
  - split; [|exact Hin]. rewrite Heff. vm_compute. reflexivity.
Defined.

Lemma checkAlarms_fires_due_one_shots_witness :
  let first := mk_event 1 "First" (civil 2024 1 1 9 0) NONE in
  let second := mk_event 2 "Second" (civil 2024 1 1 10 0) NONE in
  let third := mk_event 3 "Third" (civil 2024 1 1 11 0) NONE in
  let s := mk_system [first; third; second] true (mk_sqlite [] 3 []) in
  let '(s', effects, exception) :=
    checkAlarms 5 s (fun _ => (civil 2024 1 1 10 30, civil 2024 1 1 10 30)) in
  exception = None /\ events s' ≡ₚ [third] /\
  exists fired : list AlarmEvent,
    fired ≡ₚ [first; second] /\ stdout_lines effects = map alarm_line fired.
Proof.
  cbv zeta.
  assert (Hheap : events_heap [mk_event 1 "First" (civil 2024 1 1 9 0) NONE;
                               mk_event 3 "Third" (civil 2024 1 1 11 0) NONE;
                               mk_event 2 "Second" (civil 2024 1 1 10 0) NONE]).
  { intros i d Hi. cbn in Hi. destruct i as [|[|[|i]]]; [lia| | |lia];
      vm_compute; discriminate. }
  assert (Hone : Forall (fun e => recurrence e = NONE)
                   [mk_event 1 "First" (civil 2024 1 1 9 0) NONE;
                    mk_event 3 "Third" (civil 2024 1 1 11 0) NONE;
                    mk_event 2 "Second" (civil 2024 1 1 10 0) NONE])
    by (repeat constructor).
  assert (Hlen : (3 <= 5)%nat) by lia.
  pose proof (checkAlarms_fires_due_one_shots
                (mk_system [mk_event 1 "First" (civil 2024 1 1 9 0) NONE;
                            mk_event 3 "Third" (civil 2024 1 1 11 0) NONE;
                            mk_event 2 "Second" (civil 2024 1 1 10 0) NONE] true
                   (mk_sqlite [] 3 []))
                (civil 2024 1 1 10 30) 5 Hheap eq_refl Hone Hlen) as Hw.
  destruct (checkAlarms _ _ _) as [[s' effects] exception].
  destruct Hw as (Hex & _ & Hev & fired & Hfired & _ & Hout).
  split; [exact Hex|]. split.
  - etrans; [exact Hev|]. vm_compute. reflexivity.
  - exists fired. split; [|exact Hout].
    etrans; [exact Hfired|]. vm_compute. reflexivity.
Defined.

